(** * analyze-lint.py: the lint-output parser and its two report views

    A shallow embedding of [src/analyze-lint.py].  Python [str] values are
    modelled as [string]; a character is a code point below 256, so the
    classes of the [re] module and of [str.strip]/[str.split] reduce to the
    tables written out below.  The dictionaries of the script keep insertion
    order, which the reports rely on, so they are association lists. *)

From Stdlib Require Import Bool Arith NArith List Ascii String Lia.
From Stdlib Require Import Permutation Sorted DecimalString DecimalN.
Import ListNotations.

Open Scope string_scope.
Open Scope bool_scope.
Open Scope list_scope.

(** ** Characters and strings as Python sees them *)

Module PyStr.

(** [str.isspace] on one character; the same table backs [\s] of [re] and
    the argument-less [str.strip] and [str.split]. *)
Definition is_space (c : ascii) : bool :=
  let n := nat_of_ascii c in
  ((9 <=? n)%nat && (n <=? 13)%nat) || ((28 <=? n)%nat && (n <=? 32)%nat)
  || (n =? 133)%nat || (n =? 160)%nat.

(** [\d] of [re] below code point 256. *)
Definition is_digit (c : ascii) : bool :=
  let n := nat_of_ascii c in (48 <=? n)%nat && (n <=? 57)%nat.

Definition newline : ascii := ascii_of_nat 10.

Fixpoint all_chars (p : ascii -> bool) (s : string) : bool :=
  match s with
  | EmptyString => true
  | String c s' => p c && all_chars p s'
  end.

(** [s.startswith(t)] *)
Fixpoint startswith (t s : string) : bool :=
  match t, s with
  | EmptyString, _ => true
  | String a t', String b s' => Ascii.eqb a b && startswith t' s'
  | String _ _, EmptyString => false
  end.

(** [t in s] *)
Fixpoint contains (t s : string) : bool :=
  startswith t s ||
  match s with
  | EmptyString => false
  | String _ s' => contains t s'
  end.

(** The rest of [s] after the prefix [t], when [s.startswith(t)]. *)
Fixpoint drop_prefix (t s : string) : option string :=
  match t, s with
  | EmptyString, _ => Some s
  | String a t', String b s' =>
      if Ascii.eqb a b then drop_prefix t' s' else None
  | String _ _, EmptyString => None
  end.

Fixpoint lstrip (s : string) : string :=
  match s with
  | EmptyString => EmptyString
  | String c s' => if is_space c then lstrip s' else s
  end.

Fixpoint rstrip (s : string) : string :=
  match s with
  | EmptyString => EmptyString
  | String c s' =>
      match rstrip s' with
      | EmptyString => if is_space c then EmptyString else String c EmptyString
      | r => String c r
      end
  end.

(** [s.strip()] *)
Definition strip (s : string) : string := rstrip (lstrip s).

(** Truth value of a [str]. *)
Definition truthy (s : string) : bool :=
  match s with EmptyString => false | String _ _ => true end.

(** [s.split(sep)] for a one-character separator: never an empty list. *)
Fixpoint split_on (sep : ascii) (s : string) : list string :=
  match s with
  | EmptyString => [EmptyString]
  | String c s' =>
      if Ascii.eqb c sep then EmptyString :: split_on sep s'
      else match split_on sep s' with
           | w :: ws => String c w :: ws
           | [] => [String c EmptyString]
           end
  end.

(** [s.split()]: maximal runs of non-space characters. *)
Fixpoint split_ws (s : string) : list string :=
  match s with
  | EmptyString => []
  | String c s' =>
      if is_space c then split_ws s'
      else match s' with
           | EmptyString => [String c EmptyString]
           | String d _ =>
               if is_space d then String c EmptyString :: split_ws s'
               else match split_ws s' with
                    | w :: ws => String c w :: ws
                    | [] => [String c EmptyString]
                    end
           end
  end.

(** [s.replace(old, '')] for a non-empty [old]: occurrences are removed
    left to right, [skip] counting the characters of the occurrence still
    to be dropped. *)
Fixpoint remove_from (old : string) (skip : nat) (s : string) : string :=
  match s with
  | EmptyString => EmptyString
  | String c s' =>
      match skip with
      | S n => remove_from old n s'
      | O => if startswith old s
             then remove_from old (String.length old - 1) s'
             else String c (remove_from old 0 s')
      end
  end.

Definition remove_all (old s : string) : string :=
  if truthy old then remove_from old 0 s else s.

(** [c * n] *)
Fixpoint repeat_char (c : ascii) (n : nat) : string :=
  match n with O => EmptyString | S k => String c (repeat_char c k) end.

(** [str(n)] for a non-negative [int]. *)
Definition str_of_N (n : N) : string := NilZero.string_of_uint (N.to_uint n).
Definition str_of_nat (n : nat) : string := str_of_N (N.of_nat n).

(** [int(s)] on a string of decimal digits: the value [int] returns when
    it returns; [None] stands for the ValueError on a character that is no
    digit.  The ValueError that recent interpreters raise on more than
    4300 digits is [int_raises] below, and the loop that it ends is
    [parse_lines_checked]. *)
Fixpoint int_acc (acc : N) (s : string) : option N :=
  match s with
  | EmptyString => Some acc
  | String c s' =>
      if is_digit c
      then int_acc (acc * 10 + (N_of_ascii c - 48))%N s'
      else None
  end.

Definition int_of_str (s : string) : option N :=
  if truthy s then int_acc 0%N s else None.

(** Format specs [{s:<w}] and [{s:>w}]. *)
Definition pad_right (w : nat) (s : string) : string :=
  (s ++ repeat_char " " (w - String.length s))%string.
Definition pad_left (w : nat) (s : string) : string :=
  (repeat_char " " (w - String.length s) ++ s)%string.

End PyStr.
Import PyStr.

(** ** The fragment of [re] the script uses

    A backtracking matcher in continuation-passing style: alternatives are
    tried in the priority order of [re], and the first overall success
    fixes the groups. *)

Module Re.

Inductive regex : Type :=
| Bol                              (* ^ *)
| Eol                              (* $ *)
| Chr (c : ascii)
| Str (t : string)
| Rep1 (p : ascii -> bool)         (* [p]+   greedy *)
| Rep1Lazy (p : ascii -> bool)     (* [p]+?  lazy *)
| Opt (r : regex)                  (* r?     greedy *)
| Alt (r1 r2 : regex)
| Seq (r1 r2 : regex)
| Grp (n : nat) (r : regex).

Definition groups := list (nat * string).

(** The text between two suffixes of the subject. *)
Fixpoint take (n : nat) (s : string) : string :=
  match n, s with
  | S k, String c s' => String c (take k s')
  | _, _ => EmptyString
  end.

Definition consumed (s s' : string) : string :=
  take (String.length s - String.length s') s.

Section Matcher.
Context {A : Type}.

(** As many [p] as possible, then fewer. *)
Fixpoint greedy (p : ascii -> bool) (s : string) (k : string -> option A)
  : option A :=
  match s with
  | String c s' =>
      if p c
      then match greedy p s' k with
           | Some a => Some a
           | None => k s
           end
      else k s
  | EmptyString => k s
  end.

(** As few [p] as possible, then more. *)
Fixpoint lazy_ (p : ascii -> bool) (s : string) (k : string -> option A)
  : option A :=
  match k s with
  | Some a => Some a
  | None =>
      match s with
      | String c s' => if p c then lazy_ p s' k else None
      | EmptyString => None
      end
  end.
End Matcher.

Fixpoint run (whole : string) (r : regex) (s : string) (g : groups)
  (k : string -> groups -> option groups) : option groups :=
  match r with
  | Bol => if (String.length s =? String.length whole)%nat then k s g else None
  | Eol =>
      if String.eqb s EmptyString || String.eqb s (String newline EmptyString)
      then k s g else None
  | Chr c =>
      match s with
      | String d s' => if Ascii.eqb c d then k s' g else None
      | EmptyString => None
      end
  | Str t =>
      match drop_prefix t s with
      | Some s' => k s' g
      | None => None
      end
  | Rep1 p =>
      match s with
      | String c s' => if p c then greedy p s' (fun s'' => k s'' g) else None
      | EmptyString => None
      end
  | Rep1Lazy p =>
      match s with
      | String c s' => if p c then lazy_ p s' (fun s'' => k s'' g) else None
      | EmptyString => None
      end
  | Opt r1 =>
      match run whole r1 s g k with
      | Some a => Some a
      | None => k s g
      end
  | Alt r1 r2 =>
      match run whole r1 s g k with
      | Some a => Some a
      | None => run whole r2 s g k
      end
  | Seq r1 r2 => run whole r1 s g (fun s' g' => run whole r2 s' g' k)
  | Grp n r1 =>
      run whole r1 s g (fun s' g' => k s' ((n, consumed s s') :: g'))
  end.

(** [re.match(r, line)]: anchored at the start, free at the end. *)
Definition re_match (r : regex) (line : string) : option groups :=
  run line r line [] (fun _ g => Some g).

(** [m.group(n)] *)
Fixpoint group (n : nat) (g : groups) : option string :=
  match g with
  | [] => None
  | (i, t) :: g' => if (i =? n)%nat then Some t else group n g'
  end.

Fixpoint seq (rs : list regex) : regex :=
  match rs with
  | [] => Str EmptyString
  | [r] => r
  | r :: rs' => Seq r (seq rs')
  end.

Definition ws : regex := Rep1 is_space.                       (* \s+ *)
Definition digits : regex := Rep1 is_digit.                   (* \d+ *)
Definition dot (c : ascii) : bool := negb (Ascii.eqb c newline).  (* . *)
Definition non_space (c : ascii) : bool := negb (is_space c).     (* \S *)
Definition severity_re : regex := Alt (Str "error") (Str "warning").

End Re.
Import Re.

(** ** The parser *)

(** [r'^\s+\d+:\d+\s+(error|warning)'] *)
Definition issue_prefix_re : regex :=
  seq [Bol; ws; digits; Chr ":"; digits; ws; Grp 1 severity_re].

(** [r'^\s+(\d+):(\d+)\s+(error|warning)\s+(.+?)\s+(@?\S+)$'] *)
Definition issue_re : regex :=
  seq [Bol; ws; Grp 1 digits; Chr ":"; Grp 2 digits; ws; Grp 3 severity_re;
       ws; Grp 4 (Rep1Lazy dot); ws;
       Grp 5 (Seq (Opt (Chr "@")) (Rep1 non_space)); Eol].

Definition project_path : string :=
  "/Volumes/samsung_t9/projects/raycast-cyrup/rio-launcher/".

(** The five fields the parser takes out of a matched line. *)
Record DiagnosticRecord : Type := mkRecord {
  line_num : N;          (* int(match.group(1)) *)
  col_num : string;      (* match.group(2), kept as text *)
  severity : string;     (* match.group(3) *)
  message : string;      (* match.group(4).strip() *)
  rule : string          (* match.group(5) *)
}.

(** An element of a file's list: (line_num, error text, severity). *)
Definition issue : Type := (N * string * string)%type.

Definition issue_line (e : issue) : N := fst (fst e).
Definition issue_text (e : issue) : string := snd (fst e).
Definition issue_severity (e : issue) : string := snd e.

(** An insertion-ordered [dict]. *)
Definition dict (V : Type) : Type := list (string * V).

Fixpoint dict_get {V : Type} (d : dict V) (k : string) : option V :=
  match d with
  | [] => None
  | (k', v) :: d' => if String.eqb k' k then Some v else dict_get d' k
  end.

Definition keys {V : Type} (d : dict V) : list string := map fst d.

(** [d[k] = f(d[k])] on a [defaultdict] whose missing values are [dflt]:
    an existing key keeps its place, a new key goes last. *)
Fixpoint dict_update {V : Type} (dflt : V) (f : V -> V) (d : dict V)
  (k : string) : dict V :=
  match d with
  | [] => [(k, f dflt)]
  | (k', v) :: d' =>
      if String.eqb k' k then (k', f v) :: d'
      else (k', v) :: dict_update dflt f d' k
  end.

(** [errors_by_file[k].append(e)] *)
Definition dict_append (d : dict (list issue)) (k : string) (e : issue)
  : dict (list issue) :=
  dict_update [] (fun v => v ++ [e]) d k.

(** [categories[k] += 1] *)
Definition dict_incr (d : dict nat) (k : string) : dict nat :=
  dict_update 0 S d k.

(** The groups of a match of [issue_re], converted as the parser does. *)
Definition fields_of (g : groups) : option DiagnosticRecord :=
  match group 1 g, group 2 g, group 3 g, group 4 g, group 5 g with
  | Some g1, Some g2, Some g3, Some g4, Some g5 =>
      match int_of_str g1 with
      | Some n => Some (mkRecord n g2 g3 (strip g4) g5)
      | None => None
      end
  | _, _, _, _, _ => None
  end.

(** [f"{line_num}:{col_num} {severity} {message} {rule}"] *)
Definition error_text (r : DiagnosticRecord) : string :=
  (str_of_N (line_num r) ++ ":" ++ col_num r ++ " " ++ severity r ++ " "
   ++ message r ++ " " ++ rule r)%string.

Definition issue_of (r : DiagnosticRecord) : issue :=
  (line_num r, error_text r, severity r).

Record parser_state : Type := mkState {
  current_file : option string;
  errors_by_file : dict (list issue)
}.

Definition initial_state : parser_state := mkState None [].

(** The condition of the first branch, with Python's precedence:
    [(A and B and '.ts' in line) or ('.tsx' in line)]. *)
Definition file_path_line (line : string) : bool :=
  (truthy (strip line) && negb (startswith " " line) && contains ".ts" line)
  || contains ".tsx" line.

(** The condition of the [elif], for a current file [f]. *)
Definition issue_candidate (f line : string) : bool :=
  truthy f && truthy (strip line)
  && match re_match issue_prefix_re line with Some _ => true | None => false end.

(** What the second [re.match] and the conversions give for a line. *)
Definition parse_issue (line : string) : option DiagnosticRecord :=
  match re_match issue_re line with
  | Some g => fields_of g
  | None => None
  end.

(** One turn of the loop body. *)
Definition process_line (st : parser_state) (line : string) : parser_state :=
  if file_path_line line then
    if contains project_path line
    then mkState (Some (strip line)) (errors_by_file st)
    else st
  else
    match current_file st with
    | Some f =>
        if issue_candidate f line then
          match parse_issue line with
          | Some r =>
              mkState (current_file st)
                      (dict_append (errors_by_file st) f (issue_of r))
          | None => st
          end
        else st
    | None => st
    end.

Definition parse_lines (st : parser_state) (lines : list string)
  : parser_state :=
  fold_left process_line lines st.

Definition parse_lint_output (output : string) : dict (list issue) :=
  errors_by_file (parse_lines initial_state (split_on newline output)).

(** ** Sorting as [sorted] does: stable, by a key *)

Section StableSort.
Context {A : Type} (before : A -> A -> bool).

(** [x] goes in front of the first element it may precede, so elements
    that compare equal keep their order. *)
Fixpoint insert_sorted (x : A) (l : list A) : list A :=
  match l with
  | [] => [x]
  | y :: l' => if before x y then x :: l else y :: insert_sorted x l'
  end.

Fixpoint stable_sort (l : list A) : list A :=
  match l with
  | [] => []
  | x :: l' => insert_sorted x (stable_sort l')
  end.
End StableSort.

(** [sorted(l, key=key, reverse=True)] with a count as key. *)
Definition sorted_desc {A : Type} (key : A -> nat) (l : list A) : list A :=
  stable_sort (fun x y => key y <=? key x)%nat l.

(** [sorted(l, key=key)] with a line number as key. *)
Definition sorted_asc {A : Type} (key : A -> N) (l : list A) : list A :=
  stable_sort (fun x y => key x <=? key y)%N l.

(** ** The two report views

    Every [print] call is kept as one value of [printed], which records
    what was computed for that row; [show] gives the text of the row. *)

Inductive printed : Type :=
| Plain (s : string)
| DetailFile (display_path : string)
| DetailCounts (error_count warning_count total : nat)
| DetailIssue (text : string)
| SummaryFile (display_path : string) (error_count warning_count total : nat)
| CategoryLine (rule : string) (count : nat)
| MoreRules (more remaining : nat)
| GrandTotal (total_errors total_warnings both : nat)
| FileCount (files : nat).

Definition nl : string := String newline EmptyString.

Definition show (p : printed) : string :=
  match p with
  | Plain s => s
  | DetailFile d => "FILE: " ++ d
  | DetailCounts e w t =>
      "ERRORS: " ++ str_of_nat e ++ ", WARNINGS: " ++ str_of_nat w
      ++ ", TOTAL: " ++ str_of_nat t
  | DetailIssue t => "  " ++ t
  | SummaryFile d e w t =>
      pad_right 60 d ++ " Errors: " ++ pad_left 5 (str_of_nat e)
      ++ " Warnings: " ++ pad_left 5 (str_of_nat w)
      ++ " Total: " ++ pad_left 5 (str_of_nat t)
  | CategoryLine r c => "  " ++ pad_right 70 r ++ " " ++ pad_left 5 (str_of_nat c)
  | MoreRules m c =>
      "  " ++ pad_right 70 ("... and " ++ str_of_nat m ++ " more rules")
      ++ " " ++ pad_left 5 (str_of_nat c)
  | GrandTotal e w b =>
      pad_right 60 "TOTAL" ++ " " ++ pad_left 10 (str_of_nat e) ++ " "
      ++ pad_left 10 (str_of_nat w) ++ " " ++ pad_left 10 (str_of_nat b)
  | FileCount n => nl ++ "Total files with issues: " ++ str_of_nat n
  end%string.

(** [sum(1 for _, _, severity in errors if severity == sev)] *)
Definition count_severity (sev : string) (errors : list issue) : nat :=
  list_sum (map (fun _ => 1)
                (filter (fun e => String.eqb (issue_severity e) sev) errors)).

Definition display_path_of (file_path : string) : string :=
  remove_all project_path file_path.

Definition detailed_block (entry : string * list issue) : list printed :=
  let '(file_path, errors) := entry in
  [ Plain (nl ++ repeat_char "=" 80)%string;
    DetailFile (display_path_of file_path);
    DetailCounts (count_severity "error" errors)
                 (count_severity "warning" errors) (List.length errors);
    Plain (repeat_char "=" 80) ]
  ++ map (fun e => DetailIssue (issue_text e)) (sorted_asc issue_line errors).

Definition print_detailed_output (errors_by_file : dict (list issue))
  : list printed :=
  [ Plain (repeat_char "=" 100); Plain "DETAILED LINT ERRORS BY FILE";
    Plain (repeat_char "=" 100); Plain "" ]
  ++ flat_map detailed_block
       (sorted_desc (fun x => List.length (snd x)) errors_by_file).

(** One element of [file_summaries]. *)
Record file_summary : Type := mkSummary {
  sum_path : string;
  sum_errors : nat;
  sum_warnings : nat;
  sum_total : nat;
  sum_categories : dict nat
}.

(** The inner loop: the last token of each error text is counted. *)
Definition count_category (categories : dict nat) (e : issue) : dict nat :=
  match split_ws (issue_text e) with
  | [] => categories
  | p :: parts => dict_incr categories (last parts p)
  end.

Definition category_breakdown (errors : list issue) : dict nat :=
  fold_left count_category errors [].

Definition summarize (entry : string * list issue) : file_summary :=
  let '(file_path, errors) := entry in
  mkSummary (display_path_of file_path)
            (count_severity "error" errors)
            (count_severity "warning" errors)
            (List.length errors)
            (category_breakdown errors).

(** The accumulators of the first loop of [print_summary]:
    (file_summaries, total_errors, total_warnings). *)
Definition summary_acc : Type := (list file_summary * nat * nat)%type.

Definition summary_step (acc : summary_acc) (entry : string * list issue)
  : summary_acc :=
  let '(file_summaries, total_errors, total_warnings) := acc in
  let s := summarize entry in
  (file_summaries ++ [s], total_errors + sum_errors s,
   total_warnings + sum_warnings s).

Definition summary_totals (errors_by_file : dict (list issue)) : summary_acc :=
  fold_left summary_step errors_by_file ([], 0, 0).

Definition sorted_categories (s : file_summary) : list (string * nat) :=
  sorted_desc snd (sum_categories s).

(** The three rows that open a file's block. *)
Definition summary_head (s : file_summary) : list printed :=
  [ Plain (nl ++ repeat_char "=" 100)%string;
    SummaryFile (sum_path s) (sum_errors s) (sum_warnings s) (sum_total s);
    Plain (repeat_char "-" 100) ].

Definition category_row (rc : string * nat) : printed :=
  CategoryLine (fst rc) (snd rc).

Definition summary_block (s : file_summary) : list printed :=
  let sorted := sorted_categories s in
  summary_head s
  ++ map category_row (firstn 10 sorted)
  ++ (if (10 <? List.length sorted)%nat
      then [MoreRules (List.length sorted - 10)
                      (list_sum (map snd (skipn 10 sorted)))]
      else []).

Definition print_summary (errors_by_file : dict (list issue)) : list printed :=
  let '(file_summaries, total_errors, total_warnings) :=
    summary_totals errors_by_file in
  [ Plain (nl ++ repeat_char "=" 100)%string;
    Plain "SUMMARY BY FILE (sorted by total issues)";
    Plain (repeat_char "=" 100); Plain "" ]
  ++ flat_map summary_block (sorted_desc sum_total file_summaries)
  ++ [ Plain (nl ++ repeat_char "=" 100)%string;
       GrandTotal total_errors total_warnings (total_errors + total_warnings);
       Plain (repeat_char "=" 100);
       FileCount (List.length file_summaries) ].

(** ** The top-level flow, after the lint command has returned *)

Inductive effect : Type :=
| Console (p : printed)
| SaveFile (path content : string).

Definition file_text (rows : list printed) : string :=
  fold_right (fun p acc => (show p ++ nl ++ acc)%string) EmptyString rows.

(** The three logs [main] writes and the four lines it prints about them,
    before it looks at the issues. *)
Definition log_effects (output timestamp : string) : list effect :=
  let current_log_path := ("/tmp/lint-current-" ++ timestamp ++ ".log")%string in
  [ SaveFile "/tmp/lint-raw.log" output;
    SaveFile current_log_path output;
    SaveFile "/tmp/lint-latest.log" output;
    Console (Plain (nl ++ "Logs saved to:")%string);
    Console (Plain "  - Raw: /tmp/lint-raw.log");
    Console (Plain ("  - Current: " ++ current_log_path)%string);
    Console (Plain "  - Latest: /tmp/lint-latest.log") ].

(** [main] from the point where [run_lint] has returned [output];
    [timestamp] is the formatted clock reading. *)
Definition main_after_lint (output timestamp : string) : list effect :=
  let errors_by_file := parse_lint_output output in
  match errors_by_file with
  | [] =>
      log_effects output timestamp
      ++ [Console (Plain (nl ++ "No errors found!")%string)]
  | _ :: _ =>
      log_effects output timestamp
      ++ map Console (print_summary errors_by_file)
      ++ [ SaveFile "/tmp/lint-detailed.log"
             (file_text (print_detailed_output errors_by_file));
           Console (Plain (nl ++ "Detailed output saved to: /tmp/lint-detailed.log")%string) ]
  end.

Definition main (run_lint_output timestamp : string) : list effect :=
  Console (Plain "Running npm lint...") :: main_after_lint run_lint_output timestamp.

(** ** Predicates used to state the properties *)

(** [matches whole r pre rest new]: [r] can match the text [pre] when
    [rest] follows it in the subject [whole], recording the groups [new]
    (latest first). *)
Fixpoint matches (whole : string) (r : regex) (pre rest : string)
  (new : groups) : Prop :=
  match r with
  | Bol => pre = "" /\ new = []
           /\ String.length rest = String.length whole
  | Eol => pre = "" /\ new = [] /\ (rest = "" \/ rest = String newline "")
  | Chr c => pre = String c "" /\ new = []
  | Str t => pre = t /\ new = []
  | Rep1 p | Rep1Lazy p => pre <> "" /\ all_chars p pre = true /\ new = []
  | Opt r1 => (pre = "" /\ new = []) \/ matches whole r1 pre rest new
  | Alt r1 r2 => matches whole r1 pre rest new \/ matches whole r2 pre rest new
  | Seq r1 r2 =>
      exists a b n1 n2,
        pre = (a ++ b)%string /\ new = n2 ++ n1
        /\ matches whole r1 a (b ++ rest)%string n1
        /\ matches whole r2 b rest n2
  | Grp n r1 =>
      exists n1, new = (n, pre) :: n1 /\ matches whole r1 pre rest n1
  end.

(** A record that [parse_issue] can return. *)
Definition well_formed (r : DiagnosticRecord) : Prop :=
  (exists d1, d1 <> "" /\ all_chars is_digit d1 = true
              /\ int_of_str d1 = Some (line_num r))
  /\ (col_num r <> "" /\ all_chars is_digit (col_num r) = true)
  /\ (severity r = "error" \/ severity r = "warning")
  /\ (rule r <> "" /\ all_chars non_space (rule r) = true).

(** The histogram of the data model: records counted by their [rule]
    field, rules in order of first appearance. *)
Definition rule_histogram (records : list DiagnosticRecord) : dict nat :=
  fold_left dict_incr (map rule records) [].

(** The trailing whitespace-delimited token of a text, if it has one. *)
Definition last_token (text : string) : option string :=
  match split_ws text with
  | [] => None
  | p :: parts => Some (last parts p)
  end.

(** [f] is the trimmed text of a line of [lines] that took the first
    branch of the loop and names the project. *)
Definition header_key (lines : list string) (f : string) : Prop :=
  exists line,
    In line lines /\ file_path_line line = true
    /\ contains project_path line = true /\ f = strip line.

(** [e] was built from a line of [lines] that [issue_re] decomposed. *)
Definition parsed_issue (lines : list string) (e : issue) : Prop :=
  exists line r,
    In line lines /\ parse_issue line = Some r /\ e = issue_of r.

(** What holds of the parser's two variables after any number of lines. *)
Definition state_ok (lines : list string) (st : parser_state) : Prop :=
  (forall f, current_file st = Some f -> header_key lines f)
  /\ NoDup (keys (errors_by_file st))
  /\ (forall k v, In (k, v) (errors_by_file st) ->
        header_key lines k /\ v <> [] /\ Forall (parsed_issue lines) v).

Definition starts_non_space (t : string) : bool :=
  match t with
  | String a _ => negb (is_space a)
  | EmptyString => false
  end.

Fixpoint ends_non_space (t : string) : bool :=
  match t with
  | EmptyString => false
  | String a EmptyString => negb (is_space a)
  | String _ t' => ends_non_space t'
  end.

(** Non-increasing keys along a list. *)
Definition descending {A : Type} (key : A -> nat) (l : list A) : Prop :=
  StronglySorted (fun x y => key y <= key x) l.

Definition severity_known (e : issue) : Prop :=
  issue_severity e = "error" \/ issue_severity e = "warning".

(** ** Sample inputs *)

Definition sample_header : string :=
  "/Volumes/samsung_t9/projects/raycast-cyrup/rio-launcher/src/index.ts".

Definition sample_issue_line : string :=
  "  12:34  error    Something bad    some-rule".

Definition sample_record : DiagnosticRecord :=
  mkRecord 12 "34" "error" "Something bad" "some-rule".

(** A header of a file outside the project. *)
Definition foreign_header : string := "/usr/lib/node_modules/pkg/lib.ts".

(** An issue whose message names a [.tsx] file. *)
Definition tsx_issue_line : string :=
  "  7:21  error  Unable to resolve path to module './List.tsx'  import/no-unresolved".

(** An indented line that names a [.tsx] file of the project. *)
Definition indented_tsx_line : string :=
  "  3:1  error  Cannot find /Volumes/samsung_t9/projects/raycast-cyrup/rio-launcher/src/App.tsx  import/no-unresolved".

(** A file-level finding, which linters report at position 0:0. *)
Definition zero_position_line : string :=
  "  0:0  error  Parsing error: unexpected token  parse-error".

(** ** Proof steps used more than once *)

Ltac break_up :=
  repeat match goal with
         | H : exists _, _ |- _ => destruct H
         | H : _ /\ _ |- _ => destruct H
         end.

Ltac split_cases :=
  repeat match goal with
         | H : _ \/ _ |- _ => destruct H
         end.

(** ** Predicates for the properties beyond the parser's contract *)

(** The (file, issue) pair one turn of the loop files, if it files one. *)
Definition emitted (st : parser_state) (line : string)
  : option (string * issue) :=
  if file_path_line line then None
  else match current_file st with
       | Some f =>
           if issue_candidate f line then
             match parse_issue line with
             | Some r => Some (f, issue_of r)
             | None => None
             end
           else None
       | None => None
       end.

(** Everything the loop files over a run of lines, in encounter order. *)
Fixpoint trace (st : parser_state) (lines : list string)
  : list (string * issue) :=
  match lines with
  | [] => []
  | l :: ls =>
      match emitted st l with
      | Some p => p :: trace (process_line st l) ls
      | None => trace (process_line st l) ls
      end
  end.

(** Filing one pair: what [errors_by_file[f].append(e)] does to the dict. *)
Definition file_issue (d : dict (list issue)) (p : string * issue)
  : dict (list issue) :=
  dict_append d (fst p) (snd p).

(** The distinct elements of a list, each at its first occurrence. *)
Fixpoint first_seen (l : list string) : list string :=
  match l with
  | [] => []
  | x :: l' => x :: filter (fun y => negb (String.eqb y x)) (first_seen l')
  end.

(** The issues filed under [k], in the order they were filed. *)
Definition filed_under (k : string) (evs : list (string * issue))
  : list issue :=
  map snd (filter (fun p => String.eqb (fst p) k) evs).

Definition mem (k : string) (l : list string) : bool :=
  existsb (String.eqb k) l.

(** [a] is an initial segment of [b]. *)
Definition prefix_of {A : Type} (a b : list A) : Prop :=
  exists c, b = a ++ c.

(** The texts of the issue rows among printed rows. *)
Fixpoint detail_rows (rows : list printed) : list string :=
  match rows with
  | [] => []
  | DetailIssue t :: rows' => t :: detail_rows rows'
  | _ :: rows' => detail_rows rows'
  end.




(** Non-decreasing keys along a list. *)
Definition ascending {A : Type} (key : A -> N) (l : list A) : Prop :=
  StronglySorted (fun x y => (key x <= key y)%N) l.

(** The shape of a line that [issue_re] accepts. *)
Definition issue_shape (line : string) : Prop :=
  exists w1 d1 d2 w2 sev w3 msg w4 rl tail,
    line = (w1 ++ d1 ++ ":" ++ d2 ++ w2 ++ sev ++ w3 ++ msg ++ w4 ++ rl
            ++ tail)%string
    /\ (w1 <> "" /\ all_chars is_space w1 = true)
    /\ (d1 <> "" /\ all_chars is_digit d1 = true)
    /\ (d2 <> "" /\ all_chars is_digit d2 = true)
    /\ (w2 <> "" /\ all_chars is_space w2 = true)
    /\ (sev = "error" \/ sev = "warning")
    /\ (w3 <> "" /\ all_chars is_space w3 = true)
    /\ (msg <> "" /\ all_chars dot msg = true)
    /\ (w4 <> "" /\ all_chars is_space w4 = true)
    /\ (rl <> "" /\ all_chars non_space rl = true)
    /\ (tail = "" \/ tail = String newline "").

(** The (path, total) pairs of the file header rows of the summary. *)
Fixpoint summary_file_rows (rows : list printed) : list (string * nat) :=
  match rows with
  | [] => []
  | SummaryFile d _ _ t :: rows' => (d, t) :: summary_file_rows rows'
  | _ :: rows' => summary_file_rows rows'
  end.

(** Whether the text has a token for the category count. *)
Definition has_token (e : issue) : bool :=
  match split_ws (issue_text e) with [] => false | _ :: _ => true end.

(** How many of the issues have [k] as the last token of their text. *)
Definition occurrences (k : string) (errors : list issue) : nat :=
  List.length
    (filter (fun e => match last_token (issue_text e) with
                      | Some t => String.eqb t k
                      | None => false
                      end) errors).

(** ** Diagnostic lines, as the loop classifies them *)

(** The condition of the [elif] in the state the loop has reached: a
    current file is set, the line is not blank and the first pattern
    matches. *)
Definition diagnostic_line (st : parser_state) (line : string) : bool :=
  match current_file st with
  | Some f => issue_candidate f line
  | None => false
  end.

(** The lines of a run on which that condition holds, each judged in the
    state reached when the loop gets to it. *)
Fixpoint diagnostic_lines (st : parser_state) (lines : list string)
  : list string :=
  match lines with
  | [] => []
  | l :: ls =>
      (if diagnostic_line st l then [l] else [])
      ++ diagnostic_lines (process_line st l) ls
  end.

(** ** The ValueError of [int]

    [int] refuses a run of more than [sys.get_int_max_str_digits()] digits,
    4300 unless configured otherwise, leading zeros counted.  Nothing in
    the script catches the ValueError, so the turn of the loop that meets
    such a line number ends the run. *)

Definition int_max_str_digits : nat := 4300.

Definition int_raises (digits : string) : bool :=
  (int_max_str_digits <? String.length digits)%nat.

(** Whether line 47 raises on this line in this state: the [elif] is
    reached and taken, the second pattern matches, and group 1 is too
    long for [int]. *)
Definition raises_on (st : parser_state) (line : string) : bool :=
  negb (file_path_line line) && diagnostic_line st line
  && match re_match issue_re line with
     | Some g =>
         match group 1 g with
         | Some digits => int_raises digits
         | None => false
         end
     | None => false
     end.

(** One turn of the loop with its exception: [None] is the ValueError. *)
Definition process_line_checked (st : parser_state) (line : string)
  : option parser_state :=
  if raises_on st line then None else Some (process_line st line).

Fixpoint parse_lines_checked (st : parser_state) (lines : list string)
  : option parser_state :=
  match lines with
  | [] => Some st
  | l :: ls =>
      match process_line_checked st l with
      | Some st' => parse_lines_checked st' ls
      | None => None
      end
  end.

Definition parse_lint_output_checked (output : string)
  : option (dict (list issue)) :=
  option_map errors_by_file
    (parse_lines_checked initial_state (split_on newline output)).

(** ** More sample inputs *)

(** One error and one warning under one header. *)
Definition two_issue_text : string :=
  (sample_header ++ nl ++ sample_issue_line ++ nl
   ++ "  3:7  warning  Unused variable  no-unused-vars")%string.

Definition unused_variable_issue : issue :=
  (3%N, "3:7 warning Unused variable no-unused-vars", "warning").

Definition rule_numbers : list string :=
  ["1"; "2"; "3"; "4"; "5"; "6"; "7"; "8"; "9"; "10"; "11"].

(** Eleven issues with eleven rules under one header. *)
Definition eleven_rules_text : string :=
  String.concat nl
    (sample_header
     :: map (fun n => ("  1:1  error  m  r" ++ n)%string) rule_numbers).

Definition eleven_issues : list issue :=
  map (fun n => issue_of (mkRecord 1 "1" "error" "m" ("r" ++ n)%string))
      rule_numbers.

(** A header of the project, an indented line naming a [.tsx] file of the
    project, and an issue. *)
Definition misfiled_text : string :=
  (sample_header ++ nl ++ indented_tsx_line ++ nl ++ sample_issue_line)%string.

(** A header outside the project followed by an issue. *)
Definition foreign_text : string :=
  (foreign_header ++ nl ++ sample_issue_line)%string.

(** An issue whose line number has 4301 digits. *)
Definition long_number_line : string :=
  ("  " ++ repeat_char "1" 4301 ++ ":1  error  m  r")%string.

(** * Properties *)

(** ** Strings *)

Lemma append_nil_r (s : string) : (s ++ "")%string = s.
Proof. induction s as [|c s IH]; simpl; [reflexivity | now rewrite IH]. Qed.

Lemma append_assoc (a b c : string) :
  ((a ++ b) ++ c)%string = (a ++ (b ++ c))%string.
Proof. induction a as [|x a IH]; simpl; [reflexivity | now rewrite IH]. Qed.

Lemma length_append (a b : string) :
  String.length (a ++ b) = String.length a + String.length b.
Proof. induction a as [|x a IH]; simpl; [reflexivity | now rewrite IH]. Qed.

Lemma truthy_true (s : string) : truthy s = true <-> s <> "".
Proof. destruct s; simpl; split; congruence. Qed.

Lemma all_chars_append (p : ascii -> bool) (a b : string) :
  all_chars p (a ++ b) = all_chars p a && all_chars p b.
Proof.
  induction a as [|x a IH]; simpl; [reflexivity|].
  now rewrite IH, andb_assoc.
Qed.

Lemma drop_prefix_Some (t s s' : string) :
  drop_prefix t s = Some s' -> s = (t ++ s')%string.
Proof.
  revert s; induction t as [|a t IH]; intros [|b s]; simpl; try congruence.
  destruct (Ascii.eqb_spec a b) as [->|]; [|discriminate].
  intros H; now rewrite (IH _ H).
Qed.

Lemma take_append (a b : string) :
  take (String.length (a ++ b) - String.length b) (a ++ b) = a.
Proof.
  rewrite length_append.
  replace (String.length a + String.length b - String.length b)
    with (String.length a) by lia.
  induction a as [|x a IH]; simpl.
  - now destruct b.
  - now rewrite IH.
Qed.

Lemma consumed_append (a b : string) : consumed (a ++ b) b = a.
Proof. apply take_append. Qed.

(** ** The matcher only accepts what the pattern describes *)

Lemma greedy_sound {A : Type} (p : ascii -> bool) (k : string -> option A) :
  forall s a, greedy p s k = Some a ->
  exists pre rest,
    s = (pre ++ rest)%string /\ all_chars p pre = true /\ k rest = Some a.
Proof.
  induction s as [|c s IH]; simpl; intros a H.
  - exists "", ""; auto.
  - destruct (p c) eqn:Hc.
    + destruct (greedy p s k) as [a'|] eqn:Hg.
      * destruct (IH _ eq_refl) as (pre & rest & -> & Hp & Hk).
        exists (String c pre), rest; simpl; rewrite Hc; repeat split; auto.
        congruence.
      * exists "", (String c s); auto.
    + exists "", (String c s); auto.
Qed.

Lemma lazy_sound {A : Type} (p : ascii -> bool) (k : string -> option A) :
  forall s a, lazy_ p s k = Some a ->
  exists pre rest,
    s = (pre ++ rest)%string /\ all_chars p pre = true /\ k rest = Some a.
Proof.
  induction s as [|c s IH]; simpl; intros a H.
  - destruct (k "") eqn:Hk; [|discriminate].
    exists "", ""; repeat split; auto. congruence.
  - destruct (k (String c s)) eqn:Hk.
    + exists "", (String c s); repeat split; auto. congruence.
    + destruct (p c) eqn:Hc; [|discriminate].
      destruct (IH _ H) as (pre & rest & -> & Hp & Hk').
      exists (String c pre), rest; simpl; rewrite Hc; auto.
Qed.

Theorem run_sound (whole : string) (r : regex) :
  forall s g k res,
    run whole r s g k = Some res ->
    exists pre rest new,
      s = (pre ++ rest)%string /\ matches whole r pre rest new
      /\ k rest (new ++ g) = Some res.
Proof.
  induction r as [| |c|t|p|p|r1 IH1|r1 IH1 r2 IH2|r1 IH1 r2 IH2|n r1 IH1];
    simpl; intros s g k res H.
  - destruct (Nat.eqb_spec (String.length s) (String.length whole));
      [|discriminate].
    exists "", s, []; simpl; auto.
  - destruct (String.eqb_spec s "") as [->|];
      [exists "", "", []; simpl; auto 6|].
    destruct (String.eqb_spec s (String newline "")) as [->|];
      [|discriminate].
    exists "", (String newline ""), []; simpl; auto 6.
  - destruct s as [|d s]; [discriminate|].
    destruct (Ascii.eqb_spec c d) as [->|]; [|discriminate].
    exists (String d ""), s, []; simpl; auto.
  - destruct (drop_prefix t s) as [s'|] eqn:Hd; [|discriminate].
    apply drop_prefix_Some in Hd.
    exists t, s', []; simpl; auto.
  - destruct s as [|c s]; [discriminate|].
    destruct (p c) eqn:Hc; [|discriminate].
    destruct (greedy_sound _ _ _ _ H) as (pre & rest & -> & Hp & Hk).
    exists (String c pre), rest, []; simpl; rewrite Hc.
    repeat split; auto; discriminate.
  - destruct s as [|c s]; [discriminate|].
    destruct (p c) eqn:Hc; [|discriminate].
    destruct (lazy_sound _ _ _ _ H) as (pre & rest & -> & Hp & Hk).
    exists (String c pre), rest, []; simpl; rewrite Hc.
    repeat split; auto; discriminate.
  - destruct (run whole r1 s g k) as [a|] eqn:H1.
    + destruct (IH1 _ _ _ _ H1) as (pre & rest & new & -> & Hm & Hk).
      exists pre, rest, new; repeat split; auto. congruence.
    + exists "", s, []; simpl; auto.
  - destruct (run whole r1 s g k) as [a|] eqn:H1.
    + destruct (IH1 _ _ _ _ H1) as (pre & rest & new & -> & Hm & Hk).
      exists pre, rest, new; repeat split; auto. congruence.
    + destruct (IH2 _ _ _ _ H) as (pre & rest & new & -> & Hm & Hk).
      exists pre, rest, new; auto.
  - destruct (IH1 _ _ _ _ H) as (a & mid & n1 & -> & Hm1 & Hk1).
    destruct (IH2 _ _ _ _ Hk1) as (b & rest & n2 & -> & Hm2 & Hk2).
    exists (a ++ b)%string, rest, (n2 ++ n1).
    rewrite append_assoc, <- app_assoc.
    repeat split; auto.
    exists a, b, n1, n2; auto.
  - destruct (IH1 _ _ _ _ H) as (pre & rest & n1 & -> & Hm & Hk).
    rewrite consumed_append in Hk.
    exists pre, rest, ((n, pre) :: n1); repeat split; auto.
    exists n1; auto.
Qed.

Corollary re_match_sound (r : regex) (line : string) (g : groups) :
  re_match r line = Some g ->
  exists pre rest, line = (pre ++ rest)%string /\ matches line r pre rest g.
Proof.
  unfold re_match; intros H.
  destruct (run_sound _ _ _ _ _ _ H) as (pre & rest & new & E & Hm & Hk).
  injection Hk as <-. rewrite app_nil_r.
  exists pre, rest; auto.
Qed.

(** ** What a match of [issue_re] looks like *)

Lemma issue_re_groups (line : string) (g : groups) :
  re_match issue_re line = Some g ->
  exists d1 d2 sev msg rl,
    g = [(5, rl); (4, msg); (3, sev); (2, d2); (1, d1)]
    /\ (d1 <> "" /\ all_chars is_digit d1 = true)
    /\ (d2 <> "" /\ all_chars is_digit d2 = true)
    /\ (sev = "error" \/ sev = "warning")
    /\ (msg <> "" /\ all_chars dot msg = true)
    /\ (rl <> "" /\ all_chars non_space rl = true).
Proof.
  intros H. apply re_match_sound in H.
  destruct H as (pre & rest & _ & Hm).
  unfold issue_re in Hm. simpl in Hm.
  break_up. split_cases; break_up; subst; simpl;
    (do 5 eexists; split; [reflexivity|]);
    repeat split; auto; try discriminate;
    simpl; auto.
Qed.

(** [int] succeeds on what [\d+] matched. *)
Lemma int_acc_digits (s : string) :
  all_chars is_digit s = true -> forall acc, exists n, int_acc acc s = Some n.
Proof.
  induction s as [|c s IH]; simpl; intros H acc; [eauto|].
  apply andb_prop in H as [Hc Hs]. rewrite Hc. now apply IH.
Qed.

Lemma int_of_str_digits (s : string) :
  s <> "" -> all_chars is_digit s = true -> exists n, int_of_str s = Some n.
Proof.
  intros Hne Hd. unfold int_of_str.
  apply truthy_true in Hne. rewrite Hne. now apply int_acc_digits.
Qed.

Lemma parse_issue_well_formed (line : string) (r : DiagnosticRecord) :
  parse_issue line = Some r -> well_formed r.
Proof.
  unfold parse_issue.
  destruct (re_match issue_re line) as [g|] eqn:Hg; [|discriminate].
  destruct (issue_re_groups _ _ Hg)
    as (d1 & d2 & sev & msg & rl & -> & Hd1 & Hd2 & Hsev & _ & Hrl).
  unfold fields_of; simpl.
  destruct (int_of_str d1) as [n|] eqn:Hn; [|discriminate].
  intros [= <-]. unfold well_formed; simpl.
  repeat split; try tauto.
  exists d1; tauto.
Qed.

(** The conversions never fail once [issue_re] has matched. *)
Lemma parse_issue_total (line : string) (g : groups) :
  re_match issue_re line = Some g -> exists r, parse_issue line = Some r.
Proof.
  intros Hg. unfold parse_issue. rewrite Hg.
  destruct (issue_re_groups _ _ Hg)
    as (d1 & d2 & sev & msg & rl & -> & [Hne Hd] & _).
  destruct (int_of_str_digits d1 Hne Hd) as [n Hn].
  unfold fields_of; simpl. rewrite Hn. eauto.
Qed.

(** ** The last token of a rendered issue is its rule *)

Lemma split_ws_head (c : ascii) (s : string) :
  is_space c = false -> split_ws (String c s) <> [].
Proof.
  intros Hc; simpl; rewrite Hc.
  destruct s as [|d s]; [discriminate|].
  destruct (is_space d); [discriminate|].
  destruct (split_ws (String d s)); discriminate.
Qed.

Lemma split_ws_append (x y : string) (c : ascii) :
  is_space c = true ->
  split_ws (x ++ String c y) = split_ws x ++ split_ws y.
Proof.
  intros Hc. induction x as [|a x IH].
  - simpl. now rewrite Hc.
  - cbn [append split_ws]. destruct (is_space a) eqn:Ha; [exact IH|].
    destruct x as [|d x].
    + simpl. now rewrite Hc.
    + cbn [append] in *. destruct (is_space d) eqn:Hd.
      * now rewrite IH.
      * rewrite IH.
        pose proof (split_ws_head d x Hd) as Hne.
        destruct (split_ws (String d x)); [contradiction | reflexivity].
Qed.

Lemma split_ws_token (t : string) :
  t <> "" -> all_chars non_space t = true -> split_ws t = [t].
Proof.
  induction t as [|c t IH]; [contradiction|]. intros _ H.
  simpl in H. apply andb_prop in H as [Hc Ht].
  unfold non_space in Hc. apply negb_true_iff in Hc.
  cbn [split_ws]. rewrite Hc.
  destruct t as [|d t]; [reflexivity|].
  assert (Hd : is_space d = false).
  { simpl in Ht. apply andb_prop in Ht as [Hd _].
    now apply negb_true_iff in Hd. }
  rewrite Hd, IH by (auto; discriminate). reflexivity.
Qed.

Lemma last_token_append (x t : string) :
  t <> "" -> all_chars non_space t = true ->
  last_token (x ++ " " ++ t) = Some t.
Proof.
  intros Hne Ht. unfold last_token.
  change (x ++ " " ++ t)%string with (x ++ String " " t)%string.
  rewrite split_ws_append by reflexivity.
  rewrite (split_ws_token t Hne Ht).
  destruct (split_ws x) as [|p parts]; [reflexivity|].
  cbn [app]. now rewrite last_last.
Qed.

Lemma error_text_ends_with_rule (r : DiagnosticRecord) :
  error_text r =
    ((str_of_N (line_num r) ++ ":" ++ col_num r ++ " " ++ severity r ++ " "
      ++ message r) ++ " " ++ rule r)%string.
Proof.
  unfold error_text. repeat rewrite append_assoc. reflexivity.
Qed.

Lemma last_token_error_text (r : DiagnosticRecord) :
  well_formed r -> last_token (error_text r) = Some (rule r).
Proof.
  intros (_ & _ & _ & Hne & Hns).
  rewrite error_text_ends_with_rule. now apply last_token_append.
Qed.

Lemma count_category_rule (cats : dict nat) (r : DiagnosticRecord) :
  well_formed r -> count_category cats (issue_of r) = dict_incr cats (rule r).
Proof.
  intros Hwf. apply last_token_error_text in Hwf.
  unfold last_token in Hwf. unfold count_category, issue_of, issue_text; simpl.
  destruct (split_ws (error_text r)); [discriminate|].
  now injection Hwf as ->.
Qed.

Lemma category_breakdown_from (records : list DiagnosticRecord) :
  Forall well_formed records ->
  forall cats,
    fold_left count_category (map issue_of records) cats
    = fold_left dict_incr (map rule records) cats.
Proof.
  induction 1 as [|r rs Hr _ IH]; intros cats; simpl; [reflexivity|].
  now rewrite count_category_rule, IH.
Qed.

(** ** Insertion-ordered dictionaries *)

Section DictFacts.
Context {V : Type} (dflt : V) (f : V -> V).

Lemma dict_get_In (d : dict V) (k : string) (v : V) :
  dict_get d k = Some v -> In (k, v) d.
Proof.
  induction d as [|[k' v'] d IH]; simpl; [discriminate|].
  destruct (String.eqb_spec k' k) as [->|]; [intros [= ->]|]; auto.
Qed.

Lemma dict_get_None (d : dict V) (k : string) :
  dict_get d k = None <-> ~ In k (keys d).
Proof.
  induction d as [|[k' v'] d IH]; simpl; [tauto|].
  destruct (String.eqb_spec k' k) as [->|Hne].
  - split; [discriminate | tauto].
  - rewrite IH; tauto.
Qed.

(** An update leaves the other keys alone... *)
Lemma dict_get_update_other (d : dict V) (k k' : string) :
  k' <> k -> dict_get (dict_update dflt f d k) k' = dict_get d k'.
Proof.
  intros Hne. induction d as [|[k0 v0] d IH]; simpl.
  - destruct (String.eqb_spec k k'); congruence.
  - destruct (String.eqb_spec k0 k) as [->|]; simpl.
    + destruct (String.eqb_spec k k'); congruence.
    + now rewrite IH.
Qed.

(** ...and applies [f] to the value of [k], or to the default. *)
Lemma dict_get_update_same (d : dict V) (k : string) :
  dict_get (dict_update dflt f d k) k
  = Some (f (match dict_get d k with Some v => v | None => dflt end)).
Proof.
  induction d as [|[k0 v0] d IH]; simpl.
  - now rewrite String.eqb_refl.
  - destruct (String.eqb_spec k0 k) as [->|Hne]; simpl.
    + now rewrite String.eqb_refl.
    + destruct (String.eqb_spec k0 k); [contradiction | exact IH].
Qed.

(** A key already present keeps its position; a new key goes last. *)
Lemma keys_dict_update (d : dict V) (k : string) :
  keys (dict_update dflt f d k)
  = match dict_get d k with
    | Some _ => keys d
    | None => keys d ++ [k]
    end.
Proof.
  induction d as [|[k0 v0] d IH]; simpl; [reflexivity|].
  destruct (String.eqb_spec k0 k) as [->|Hne]; simpl; [reflexivity|].
  rewrite IH. now destruct (dict_get d k).
Qed.

Lemma NoDup_keys_update (d : dict V) (k : string) :
  NoDup (keys d) -> NoDup (keys (dict_update dflt f d k)).
Proof.
  intros Hnd. rewrite keys_dict_update.
  destruct (dict_get d k) eqn:Hg; [assumption|].
  apply dict_get_None in Hg.
  apply NoDup_app; [assumption | |].
  - constructor; [intros [] | constructor].
  - intros x Hx [<-|[]]. contradiction.
Qed.

Lemma In_dict_update (d : dict V) (k k' : string) (v' : V) :
  In (k', v') (dict_update dflt f d k) ->
  In (k', v') d
  \/ (k' = k /\ (v' = f dflt \/ exists v, In (k, v) d /\ v' = f v)).
Proof.
  induction d as [|[k0 v0] d IH]; simpl.
  - intros [[= <- <-]|[]]; auto.
  - destruct (String.eqb_spec k0 k) as [->|Hne]; simpl.
    + intros [[= <- <-]|H]; [right|]; eauto 7.
    + intros [H|H]; [auto|].
      destruct (IH H) as [?|(-> & [?|(v & ? & ?)])]; eauto 8.
Qed.
End DictFacts.

(** Appending to a file's list: the list grows at its end, the file keeps
    its place among the keys or, when new, becomes the last key, and the
    other files are untouched. *)
Lemma dict_append_order (d : dict (list issue)) (f : string) (e : issue) :
  dict_get (dict_append d f e) f
  = Some (match dict_get d f with Some v => v | None => [] end ++ [e])
  /\ keys (dict_append d f e)
     = match dict_get d f with Some _ => keys d | None => keys d ++ [f] end
  /\ forall k, k <> f -> dict_get (dict_append d f e) k = dict_get d k.
Proof.
  unfold dict_append. split; [|split].
  - exact (dict_get_update_same [] (fun v => v ++ [e]) d f).
  - apply keys_dict_update.
  - intros k Hk. now apply dict_get_update_other.
Qed.

(** ** What the parser keeps true, line after line *)

Lemma process_line_ok (lines : list string) (st : parser_state)
  (line : string) :
  In line lines -> state_ok lines st -> state_ok lines (process_line st line).
Proof.
  intros Hin Hst. pose proof Hst as (Hcur & Hnd & Herr).
  unfold process_line.
  destruct (file_path_line line) eqn:Hfp.
  - destruct (contains project_path line) eqn:Hpp; [|assumption].
    split; [|split]; simpl; auto.
    intros f [= <-]. now exists line.
  - destruct (current_file st) as [f|] eqn:Hf; [|assumption].
    destruct (issue_candidate f line); [|assumption].
    destruct (parse_issue line) as [r|] eqn:Hr; [|assumption].
    assert (He : parsed_issue lines (issue_of r)) by (now exists line, r).
    split; [|split]; simpl; auto.
    + now apply NoDup_keys_update.
    + intros k v H. apply In_dict_update in H.
      destruct H as [H|(-> & [->|(v0 & H0 & ->)])].
      * now apply Herr.
      * split; [now apply Hcur|]. split; [discriminate | now constructor].
      * destruct (Herr _ _ H0) as (Hk & _ & Hv0).
        split; [assumption|]. split; [now destruct v0|].
        apply Forall_app; split; [assumption | now constructor].
Qed.

Lemma parse_lines_ok (lines ls : list string) :
  incl ls lines ->
  forall st, state_ok lines st -> state_ok lines (parse_lines st ls).
Proof.
  unfold parse_lines.
  induction ls as [|l ls IH]; intros Hincl st Hst; simpl; [assumption|].
  apply IH.
  - intros x Hx; apply Hincl; now right.
  - apply process_line_ok; [apply Hincl; now left | assumption].
Qed.

Lemma parse_lint_output_ok (output : string) :
  state_ok (split_on newline output)
           (parse_lines initial_state (split_on newline output)).
Proof.
  apply parse_lines_ok; [apply incl_refl|].
  split; [|split]; simpl; [discriminate | constructor | contradiction].
Qed.

(** ** Trimming keeps a substring that has no blank at either end *)

Lemma startswith_contains (t s : string) :
  startswith t s = true -> contains t s = true.
Proof. intros H. destruct s; simpl; now rewrite H. Qed.

Lemma contains_nil (t : string) : t <> "" -> contains t "" = false.
Proof. destruct t; [contradiction | reflexivity]. Qed.

Lemma startswith_rstrip (t : string) :
  ends_non_space t = true ->
  forall s, startswith t s = true -> startswith t (rstrip s) = true.
Proof.
  induction t as [|a t IH]; [discriminate|].
  intros He [|c s]; [discriminate|].
  cbn [startswith]. intros H. apply andb_prop in H as [Hac Hts].
  destruct t as [|b t].
  - apply Ascii.eqb_eq in Hac as <-. simpl in He.
    apply negb_true_iff in He. cbn [rstrip].
    destruct (rstrip s); [rewrite He|]; simpl; now rewrite Ascii.eqb_refl.
  - specialize (IH He s Hts). cbn [rstrip].
    destruct (rstrip s) as [|d r]; [discriminate|].
    change (startswith (String a (String b t)) (String c (String d r)) = true).
    cbn [startswith] in *. now rewrite Hac, IH.
Qed.

Lemma contains_rstrip (t s : string) :
  ends_non_space t = true -> contains t s = true ->
  contains t (rstrip s) = true.
Proof.
  intros He. assert (Hne : t <> "") by (now destruct t).
  induction s as [|c s IH].
  - now rewrite contains_nil.
  - intros H. cbn [contains] in H. apply orb_prop in H as [H|H].
    + apply startswith_contains. now apply startswith_rstrip.
    + specialize (IH H). cbn [rstrip].
      destruct (rstrip s) as [|d r] eqn:Hr.
      * now rewrite contains_nil in IH.
      * cbn [contains] in *. rewrite IH. apply orb_true_r.
Qed.

Lemma contains_lstrip (t s : string) :
  starts_non_space t = true -> contains t s = true ->
  contains t (lstrip s) = true.
Proof.
  destruct t as [|a t]; [discriminate|]. simpl starts_non_space.
  intros Ha. apply negb_true_iff in Ha.
  induction s as [|c s IH]; [auto|].
  intros H. cbn [lstrip]. destruct (is_space c) eqn:Hc; [|assumption].
  apply IH. cbn [contains startswith] in H.
  destruct (Ascii.eqb_spec a c) as [->|]; [congruence|].
  exact H.
Qed.

Lemma contains_strip (t s : string) :
  starts_non_space t = true -> ends_non_space t = true ->
  contains t s = true -> contains t (strip s) = true.
Proof.
  intros Hs He H. unfold strip.
  now apply contains_rstrip, contains_lstrip.
Qed.

(** ** Counting by severity *)

Lemma list_sum_ones {A : Type} (l : list A) :
  list_sum (map (fun _ => 1) l) = List.length l.
Proof. induction l; simpl; auto. Qed.

Lemma count_severity_total (errors : list issue) :
  Forall severity_known errors ->
  count_severity "error" errors + count_severity "warning" errors
  = List.length errors.
Proof.
  unfold count_severity. rewrite !list_sum_ones.
  induction 1 as [|e l [He|He] _ IH]; simpl; [reflexivity| |];
    rewrite He; simpl; lia.
Qed.

Lemma parsed_issue_severity (lines : list string) (e : issue) :
  parsed_issue lines e -> severity_known e.
Proof.
  intros (line & r & _ & Hr & ->).
  now destruct (parse_issue_well_formed _ _ Hr) as (_ & _ & Hsev & _).
Qed.

(** The first loop of [print_summary] is a map and two sums. *)
Lemma summary_totals_from (d : dict (list issue)) :
  forall l te tw,
    fold_left summary_step d (l, te, tw)
    = (l ++ map summarize d,
       te + list_sum (map sum_errors (map summarize d)),
       tw + list_sum (map sum_warnings (map summarize d))).
Proof.
  induction d as [|x d IH]; intros l te tw; simpl.
  - now rewrite app_nil_r, !Nat.add_0_r.
  - rewrite IH, <- app_assoc. simpl. now rewrite !Nat.add_assoc.
Qed.

Lemma summary_totals_eq (d : dict (list issue)) :
  summary_totals d
  = (map summarize d,
     list_sum (map sum_errors (map summarize d)),
     list_sum (map sum_warnings (map summarize d))).
Proof. unfold summary_totals. now rewrite summary_totals_from. Qed.

(** ** [sorted] permutes and orders *)

Section SortFacts.
Context {A : Type}.

Lemma insert_sorted_perm (before : A -> A -> bool) (x : A) (l : list A) :
  Permutation (insert_sorted before x l) (x :: l).
Proof.
  induction l as [|y l IH]; simpl; [reflexivity|].
  destruct (before x y); [reflexivity|].
  rewrite IH. apply perm_swap.
Qed.

Lemma stable_sort_perm (before : A -> A -> bool) (l : list A) :
  Permutation (stable_sort before l) l.
Proof.
  induction l as [|x l IH]; simpl; [reflexivity|].
  now rewrite insert_sorted_perm, IH.
Qed.

Variable key : A -> nat.

Lemma insert_descending (x : A) (l : list A) :
  descending key l ->
  descending key (insert_sorted (fun a b => key b <=? key a)%nat x l).
Proof.
  unfold descending.
  induction 1 as [|y l Hl IH Hy]; simpl.
  - repeat constructor.
  - destruct (Nat.leb_spec (key y) (key x)) as [Hle|Hlt].
    + constructor; [now constructor|].
      constructor; [assumption|].
      eapply Forall_impl; [|exact Hy]. simpl; intros; lia.
    + constructor; [assumption|].
      eapply Permutation_Forall;
        [symmetry; apply insert_sorted_perm|].
      constructor; [lia | assumption].
Qed.

Lemma sorted_desc_descending (l : list A) :
  descending key (sorted_desc key l).
Proof.
  unfold sorted_desc.
  induction l as [|x l IH]; simpl; [constructor|].
  now apply insert_descending.
Qed.

Lemma sorted_desc_perm (l : list A) : Permutation (sorted_desc key l) l.
Proof. apply stable_sort_perm. Qed.

Lemma descending_app (a b : list A) :
  descending key (a ++ b) ->
  descending key a
  /\ forall x y, In x a -> In y b -> key y <= key x.
Proof.
  unfold descending. induction a as [|z a IH]; simpl; intros H.
  - split; [constructor | contradiction].
  - inversion H as [|? ? Hs Hf]; subst.
    destruct (IH Hs) as [Ha Hab].
    apply Forall_app in Hf as [Hfa Hfb].
    split; [now constructor|].
    intros x y [<-|Hx] Hy; [|now apply Hab].
    rewrite Forall_forall in Hfb. now apply Hfb.
Qed.
End SortFacts.

(** ** The category counts add up to the number of issues *)

Lemma list_sum_dict_incr (d : dict nat) (k : string) :
  list_sum (map snd (dict_incr d k)) = S (list_sum (map snd d)).
Proof.
  unfold dict_incr.
  induction d as [|[k0 n] d IH]; simpl; [reflexivity|].
  destruct (String.eqb k0 k); simpl; [reflexivity|].
  rewrite IH. lia.
Qed.

Lemma category_sum (errors : list issue) :
  Forall (fun e => split_ws (issue_text e) <> []) errors ->
  forall cats,
    list_sum (map snd (fold_left count_category errors cats))
    = list_sum (map snd cats) + List.length errors.
Proof.
  induction 1 as [|e l He _ IH]; intros cats; simpl; [lia|].
  rewrite IH. unfold count_category.
  destruct (split_ws (issue_text e)); [contradiction|].
  rewrite list_sum_dict_incr. lia.
Qed.

Lemma category_keys_NoDup (errors : list issue) :
  forall cats,
    NoDup (keys cats) -> NoDup (keys (fold_left count_category errors cats)).
Proof.
  induction errors as [|e l IH]; intros cats Hnd; simpl; [assumption|].
  apply IH. unfold count_category.
  destruct (split_ws (issue_text e)); [assumption|].
  now apply NoDup_keys_update.
Qed.

Lemma parsed_issue_has_token (lines : list string) (e : issue) :
  parsed_issue lines e -> split_ws (issue_text e) <> [].
Proof.
  intros (line & r & _ & Hr & ->).
  apply parse_issue_well_formed, last_token_error_text in Hr.
  unfold last_token in Hr. unfold issue_of, issue_text; simpl.
  now destruct (split_ws (error_text r)).
Qed.

(** ** The loop body, case by case *)

(** A line outside the first branch that passes both matches adds its
    issue to the current file's list and leaves the current file alone. *)
Lemma issue_line_appended (st : parser_state) (f line : string)
  (r : DiagnosticRecord) :
  current_file st = Some f ->
  file_path_line line = false ->
  issue_candidate f line = true ->
  parse_issue line = Some r ->
  process_line st line
  = mkState (Some f) (dict_append (errors_by_file st) f (issue_of r)).
Proof.
  intros Hf Hfp Hc Hr. unfold process_line.
  now rewrite Hfp, Hf, Hc, Hr.
Qed.

(** Without a [.tsx] in the line, the first branch is taken exactly by the
    lines that are not blank, do not start with a space and contain [.ts]. *)
Lemma file_path_line_without_tsx (line : string) :
  contains ".tsx" line = false ->
  file_path_line line
  = truthy (strip line) && negb (startswith " " line) && contains ".ts" line.
Proof. intros H. unfold file_path_line. rewrite H. apply orb_false_r. Qed.

(** The current file after one line. *)
Lemma current_file_step (st : parser_state) (line : string) :
  current_file (process_line st line)
  = if file_path_line line && contains project_path line
    then Some (strip line) else current_file st.
Proof.
  unfold process_line.
  destruct (file_path_line line); simpl.
  - now destruct (contains project_path line).
  - destruct (current_file st) as [f|] eqn:Hf; [|assumption].
    destruct (issue_candidate f line); [|assumption].
    now destruct (parse_issue line).
Qed.

(** A line the first pattern rejects adds nothing to the dictionary. *)
Lemma errors_kept (st : parser_state) (line : string) :
  re_match issue_prefix_re line = None ->
  errors_by_file (process_line st line) = errors_by_file st.
Proof.
  intros H. unfold process_line, issue_candidate. rewrite H.
  destruct (file_path_line line).
  - now destruct (contains project_path line).
  - destruct (current_file st); [|reflexivity].
    now rewrite !andb_false_r.
Qed.

Lemma current_file_stays_set (ls : list string) :
  forall st, current_file st <> None ->
             current_file (parse_lines st ls) <> None.
Proof.
  unfold parse_lines.
  induction ls as [|l ls IH]; intros st H; simpl; [assumption|].
  apply IH. rewrite current_file_step.
  now destruct (file_path_line l && contains project_path l).
Qed.

(** ** The parser, line by line *)

(** C1, evaluated where it fails: [tsx_issue_line] follows a header of the
    project, passes both patterns and decomposes into a message and a rule,
    yet the parser returns an empty dictionary.  The line contains [.tsx],
    so the first condition of the loop, which Python reads as
    [(A and B and '.ts' in line) or ('.tsx' in line)], takes it as a file
    path and the [elif] that records issues is never reached. *)
Theorem C1_issue_naming_tsx_is_dropped :
  issue_candidate sample_header tsx_issue_line = true
  /\ parse_issue tsx_issue_line
     = Some (mkRecord 7 "21" "error"
               "Unable to resolve path to module './List.tsx'"
               "import/no-unresolved")
  /\ file_path_line tsx_issue_line = true
  /\ parse_lint_output (sample_header ++ nl ++ tsx_issue_line)%string = [].
Proof. repeat split; vm_compute; reflexivity. Qed.

(** C2, evaluated where it fails: [indented_tsx_line] starts with a space,
    yet the first branch of the loop takes it, because it contains [.tsx];
    as it also contains the project path, the whole trimmed line becomes
    the current file and the next issue is filed under it. *)
Theorem C2_indented_tsx_line_is_a_header :
  startswith " " indented_tsx_line = true
  /\ file_path_line indented_tsx_line = true
  /\ (forall st,
        process_line st indented_tsx_line
        = mkState (Some (strip indented_tsx_line)) (errors_by_file st))
  /\ parse_lint_output
       (sample_header ++ nl ++ indented_tsx_line ++ nl ++ sample_issue_line)%string
     = [(strip indented_tsx_line, [issue_of sample_record])].
Proof.
  split; [reflexivity|]. split; [reflexivity|]. split.
  - intros st. unfold process_line.
    replace (file_path_line indented_tsx_line) with true by reflexivity.
    replace (contains project_path indented_tsx_line) with true by reflexivity.
    reflexivity.
  - vm_compute. reflexivity.
Qed.

(** C3: a line that took the first branch without naming the project
    changes nothing: the state after it is the state before it.  Once set,
    the current file is never unset by any run of lines, and an issue line
    that follows such a header is appended to the list of the file that was
    current before the header. *)
Theorem C3_foreign_header_keeps_current_file (st : parser_state)
  (header : string) :
  file_path_line header = true ->
  contains project_path header = false ->
  process_line st header = st
  /\ (forall ls, current_file st <> None ->
                 current_file (parse_lines st (header :: ls)) <> None)
  /\ (forall f line r,
        current_file st = Some f ->
        file_path_line line = false ->
        issue_candidate f line = true ->
        parse_issue line = Some r ->
        parse_lines st [header; line]
        = mkState (Some f) (dict_append (errors_by_file st) f (issue_of r))).
Proof.
  intros Hfp Hpp.
  assert (Hst : process_line st header = st)
    by (unfold process_line; now rewrite Hfp, Hpp).
  split; [assumption|]. split.
  - intros ls H. now apply current_file_stays_set.
  - intros f line r Hf Hl Hc Hr. unfold parse_lines; simpl.
    rewrite Hst. now apply issue_line_appended.
Qed.

Lemma C3_foreign_header_witness :
  file_path_line foreign_header = true
  /\ contains project_path foreign_header = false
  /\ parse_lines (mkState (Some sample_header) [])
       [foreign_header; sample_issue_line]
     = mkState (Some sample_header)
               [(sample_header, [issue_of sample_record])].
Proof.
  split; [reflexivity|]. split; [reflexivity|].
  refine (proj2 (proj2 (C3_foreign_header_keeps_current_file
                          (mkState (Some sample_header) []) foreign_header
                          eq_refl eq_refl))
                sample_header sample_issue_line sample_record
                eq_refl eq_refl eq_refl eq_refl).
Defined.

(** C4: the sample line decomposes into line 12, column 34, severity
    error, message "Something bad" and rule "some-rule"; its text is
    "12:34 error Something bad some-rule"; and after a header of the
    project the parser returns that one issue under that file. *)
Theorem C4_sample_line :
  parse_issue sample_issue_line
  = Some (mkRecord 12 "34" "error" "Something bad" "some-rule")
  /\ error_text sample_record = "12:34 error Something bad some-rule"
  /\ parse_lint_output (sample_header ++ nl ++ sample_issue_line)%string
     = [(sample_header,
         [(12%N, "12:34 error Something bad some-rule", "error")])].
Proof. repeat split; vm_compute; reflexivity. Qed.

(** C5, as the code has it: every issue in the parser's result was built
    from a record whose line number is the value of a non-empty run of
    decimal digits (so it is at least 0, and may be 0), whose column is a
    non-empty run of decimal digits kept as text, and whose severity is
    "error" or "warning". *)
Theorem C5_record_fields (output : string) (k : string) (v : list issue)
  (e : issue) :
  In (k, v) (parse_lint_output output) -> In e v ->
  exists line r,
    In line (split_on newline output)
    /\ parse_issue line = Some r /\ e = issue_of r
    /\ (exists d, d <> "" /\ all_chars is_digit d = true
                  /\ int_of_str d = Some (line_num r))
    /\ (col_num r <> "" /\ all_chars is_digit (col_num r) = true)
    /\ (exists c, int_of_str (col_num r) = Some c /\ (0 <= c)%N)
    /\ (0 <= line_num r)%N
    /\ (severity r = "error" \/ severity r = "warning").
Proof.
  intros Hk He.
  destruct (parse_lint_output_ok output) as (_ & _ & Herr).
  destruct (Herr _ _ Hk) as (_ & _ & Hv).
  rewrite Forall_forall in Hv.
  destruct (Hv _ He) as (line & r & Hin & Hr & ->).
  destruct (parse_issue_well_formed _ _ Hr) as (Hl & [Hc1 Hc2] & Hs & _).
  destruct (int_of_str_digits _ Hc1 Hc2) as [c Hc].
  exists line, r. repeat split; auto; try apply N.le_0_l.
  exists c; split; [assumption | apply N.le_0_l].
Qed.

Lemma C5_record_fields_witness :
  exists line r,
    In line (split_on newline (sample_header ++ nl ++ sample_issue_line)%string)
    /\ parse_issue line = Some r /\ issue_of sample_record = issue_of r
    /\ (exists d, d <> "" /\ all_chars is_digit d = true
                  /\ int_of_str d = Some (line_num r))
    /\ (col_num r <> "" /\ all_chars is_digit (col_num r) = true)
    /\ (exists c, int_of_str (col_num r) = Some c /\ (0 <= c)%N)
    /\ (0 <= line_num r)%N
    /\ (severity r = "error" \/ severity r = "warning").
Proof.
  apply (C5_record_fields (sample_header ++ nl ++ sample_issue_line)%string
           sample_header [issue_of sample_record]).
  - vm_compute. left. reflexivity.
  - left. reflexivity.
Defined.

(** C5 as stated fails: after a header of the project, the line
    [zero_position_line] gives an issue whose line number is 0 (and whose
    column is "0"), not at least 1. *)
Lemma C5_line_zero_counterexample :
  ~ (forall output k v e,
        In (k, v) (parse_lint_output output) -> In e v ->
        exists r, e = issue_of r
                  /\ (1 <= line_num r)%N
                  /\ (exists c, int_of_str (col_num r) = Some c /\ (1 <= c)%N)
                  /\ (severity r = "error" \/ severity r = "warning")).
Proof.
  intros H.
  destruct (H (sample_header ++ nl ++ zero_position_line)%string
              sample_header
              [(0%N, "0:0 error Parsing error: unexpected token parse-error",
                "error")]
              (0%N, "0:0 error Parsing error: unexpected token parse-error",
               "error"))
    as (r & Hr & Hline & _).
  - vm_compute. left. reflexivity.
  - left. reflexivity.
  - unfold issue_of in Hr. injection Hr as Hl _ _.
    rewrite <- Hl in Hline. now apply Hline.
Qed.

(** ** The reports *)

Lemma parsed_values (output : string) (k : string) (v : list issue) :
  In (k, v) (parse_lint_output output) ->
  header_key (split_on newline output) k
  /\ v <> []
  /\ Forall (parsed_issue (split_on newline output)) v.
Proof.
  intros H. destruct (parse_lint_output_ok output) as (_ & _ & Herr).
  now apply Herr.
Qed.

Lemma totals_add_up (d : dict (list issue)) :
  (forall k v, In (k, v) d -> Forall severity_known v) ->
  list_sum (map sum_errors (map summarize d))
  + list_sum (map sum_warnings (map summarize d))
  = list_sum (map sum_total (map summarize d))
  /\ list_sum (map sum_total (map summarize d))
     = list_sum (map (fun x => List.length (snd x)) d).
Proof.
  induction d as [|[k v] d IH]; intros H; simpl; [auto|].
  destruct IH as [IH1 IH2]; [intros k' v' Hin; apply (H k' v'); now right|].
  pose proof (count_severity_total v (H k v (or_introl eq_refl))).
  lia.
Qed.

(** *** Where the rows of the two views come from *)

Lemma flat_map_split {A B : Type} (g : A -> list B) (x : A) (l : list A) :
  In x l ->
  exists l1 l2,
    l = l1 ++ x :: l2
    /\ flat_map g l = flat_map g l1 ++ g x ++ flat_map g l2.
Proof.
  intros H. apply in_split in H as (l1 & l2 & ->).
  exists l1, l2. split; [reflexivity|]. now rewrite flat_map_app.
Qed.

Lemma detailed_block_counts (entry : string * list issue) (e w t : nat) :
  In (DetailCounts e w t) (detailed_block entry) ->
  e = count_severity "error" (snd entry)
  /\ w = count_severity "warning" (snd entry)
  /\ t = List.length (snd entry).
Proof.
  destruct entry as [f errors]. unfold detailed_block. intros H.
  apply in_app_or in H as [H|H].
  - destruct H as [H|[H|[H|[H|[]]]]]; try discriminate.
    injection H as <- <- <-. auto.
  - apply in_map_iff in H as (x & Hx & _). discriminate.
Qed.

Lemma summary_block_file (s : file_summary) (p : string) (e w t : nat) :
  In (SummaryFile p e w t) (summary_block s) ->
  p = sum_path s /\ e = sum_errors s /\ w = sum_warnings s /\ t = sum_total s.
Proof.
  unfold summary_block. intros H.
  apply in_app_or in H as [H|H]; [|apply in_app_or in H as [H|H]].
  - destruct H as [H|[H|[H|[]]]]; try discriminate.
    injection H as <- <- <- <-. auto.
  - apply in_map_iff in H as (x & Hx & _). discriminate.
  - destruct (10 <? List.length (sorted_categories s))%nat;
      [destruct H as [H|[]]; discriminate | contradiction].
Qed.

Lemma summary_block_more (s : file_summary) (more remaining : nat) :
  In (MoreRules more remaining) (summary_block s) ->
  10 < List.length (sorted_categories s)
  /\ more = List.length (sorted_categories s) - 10
  /\ remaining = list_sum (map snd (skipn 10 (sorted_categories s))).
Proof.
  unfold summary_block. intros H.
  apply in_app_or in H as [H|H]; [|apply in_app_or in H as [H|H]].
  - destruct H as [H|[H|[H|[]]]]; discriminate.
  - apply in_map_iff in H as (x & Hx & _). discriminate.
  - destruct (Nat.ltb_spec 10 (List.length (sorted_categories s)));
      [|contradiction].
    destruct H as [H|[]]. injection H as <- <-. auto.
Qed.

(** A row of the detailed view is a banner row or a row of the block of a
    file of the mapping. *)
Lemma print_detailed_rows (d : dict (list issue)) (row : printed) :
  In row (print_detailed_output d) ->
  (exists s, row = Plain s)
  \/ exists entry, In entry d /\ In row (detailed_block entry).
Proof.
  unfold print_detailed_output. intros H. apply in_app_or in H as [H|H].
  - left. destruct H as [H|[H|[H|[H|[]]]]]; subst; eauto.
  - right. apply in_flat_map in H as (entry & Hin & Hrow).
    exists entry. split; [|assumption].
    eapply Permutation_in; [apply sorted_desc_perm | exact Hin].
Qed.

(** The block of every file of the mapping is part of the detailed view. *)
Lemma print_detailed_split (d : dict (list issue))
  (entry : string * list issue) :
  In entry d ->
  exists before after,
    print_detailed_output d = before ++ detailed_block entry ++ after.
Proof.
  intros Hin.
  assert (Hs : In entry (sorted_desc (fun x => List.length (snd x)) d))
    by (eapply Permutation_in; [symmetry; apply sorted_desc_perm | exact Hin]).
  destruct (flat_map_split detailed_block _ _ Hs) as (l1 & l2 & _ & Hfm).
  unfold print_detailed_output. rewrite Hfm.
  match goal with
  | |- exists before after, ?banner ++ _ = _ =>
      exists (banner ++ flat_map detailed_block l1),
             (flat_map detailed_block l2)
  end.
  now rewrite <- !app_assoc.
Qed.

(** A row of the summary view is a banner row, a row of the block of a
    file of the mapping, the grand total or the file count. *)
Lemma print_summary_rows_from (d : dict (list issue)) (row : printed) :
  In row (print_summary d) ->
  (exists s, row = Plain s)
  \/ (exists entry, In entry d /\ In row (summary_block (summarize entry)))
  \/ row = GrandTotal (list_sum (map sum_errors (map summarize d)))
                      (list_sum (map sum_warnings (map summarize d)))
                      (list_sum (map sum_errors (map summarize d))
                       + list_sum (map sum_warnings (map summarize d)))
  \/ row = FileCount (List.length (map summarize d)).
Proof.
  unfold print_summary. rewrite summary_totals_eq. intros H.
  apply in_app_or in H as [H|H]; [|apply in_app_or in H as [H|H]].
  - left. destruct H as [H|[H|[H|[H|[]]]]]; subst; eauto.
  - right; left. apply in_flat_map in H as (s & Hin & Hrow).
    assert (Hs : In s (map summarize d))
      by (eapply Permutation_in; [apply sorted_desc_perm | exact Hin]).
    apply in_map_iff in Hs as (entry & <- & Hentry). eauto.
  - destruct H as [H|[H|[H|[H|[]]]]]; subst; eauto.
Qed.

(** The block of every file of the mapping is part of the summary view,
    and the row that follows it is a separator, not a category row. *)
Lemma print_summary_split (d : dict (list issue))
  (entry : string * list issue) :
  In entry d ->
  exists before after,
    print_summary d = before ++ summary_block (summarize entry) ++ after
    /\ match after with Plain _ :: _ => True | _ => False end.
Proof.
  intros Hin.
  assert (Hs : In (summarize entry) (sorted_desc sum_total (map summarize d))).
  { eapply Permutation_in; [symmetry; apply sorted_desc_perm|].
    now apply in_map. }
  destruct (flat_map_split summary_block _ _ Hs) as (l1 & l2 & _ & Hfm).
  unfold print_summary. rewrite summary_totals_eq, Hfm.
  match goal with
  | |- exists before after, ?banner ++ _ ++ ?totals = _ /\ _ =>
      exists (banner ++ flat_map summary_block l1),
             (flat_map summary_block l2 ++ totals)
  end.
  split; [now rewrite <- !app_assoc|].
  destruct l2 as [|s l2]; simpl; exact I.
Qed.

(** C6: for every file of a parsed mapping the error count and the warning
    count add up to the number of issues of the file; the detailed view
    prints these counts in the counts row right after the file's path row,
    and the summary view prints them in the file's header row.  Every
    counts row of the detailed view and every header row of the summary
    view adds up in this way.  The grand-total row of the summary view, and
    no other, shows the sum of the per-file error counts, the sum of the
    per-file warning counts, and their sum, which is the sum of the
    per-file totals. *)
Theorem C6_counts_add_up (output : string) :
  let d := parse_lint_output output in
  (forall f errors, In (f, errors) d ->
     let e := count_severity "error" errors in
     let w := count_severity "warning" errors in
     e + w = List.length errors
     /\ In (DetailCounts e w (List.length errors)) (detailed_block (f, errors))
     /\ In (SummaryFile (display_path_of f) e w (List.length errors))
           (summary_block (summarize (f, errors)))
     /\ (exists before after,
           print_detailed_output d
           = before
             ++ [ DetailFile (display_path_of f);
                  DetailCounts e w (List.length errors) ]
             ++ after)
     /\ In (SummaryFile (display_path_of f) e w (List.length errors))
           (print_summary d))
  /\ (exists te tw,
        summary_totals d = (map summarize d, te, tw)
        /\ te = list_sum (map sum_errors (map summarize d))
        /\ tw = list_sum (map sum_warnings (map summarize d))
        /\ te + tw = list_sum (map sum_total (map summarize d))
        /\ te + tw = list_sum (map (fun x => List.length (snd x)) d)
        /\ In (GrandTotal te tw (te + tw)) (print_summary d)
        /\ (forall a b c, In (GrandTotal a b c) (print_summary d) ->
                          a = te /\ b = tw /\ c = te + tw))
  /\ (forall e w t,
        In (DetailCounts e w t) (print_detailed_output d) -> e + w = t)
  /\ (forall p e w t,
        In (SummaryFile p e w t) (print_summary d) -> e + w = t).
Proof.
  intros d.
  assert (Hsev : forall k v, In (k, v) d -> Forall severity_known v).
  { intros k v Hin. destruct (parsed_values _ _ _ Hin) as (_ & _ & Hv).
    eapply Forall_impl; [|exact Hv]. apply parsed_issue_severity. }
  assert (Hadd : forall k v, In (k, v) d ->
             count_severity "error" v + count_severity "warning" v
             = List.length v).
  { intros k v Hin. apply count_severity_total. now apply (Hsev k). }
  split; [|split; [|split]].
  - intros f errors Hin e w.
    split; [now apply (Hadd f)|].
    split; [simpl; auto|]. split; [simpl; auto|]. split.
    + destruct (print_detailed_split d (f, errors) Hin)
        as (before & after & Hp).
      rewrite Hp. unfold detailed_block.
      exists (before ++ [Plain (nl ++ repeat_char "=" 80)%string]),
             (Plain (repeat_char "=" 80)
              :: map (fun x => DetailIssue (issue_text x))
                     (sorted_asc issue_line errors) ++ after).
      rewrite <- !app_assoc. reflexivity.
    + destruct (print_summary_split d (f, errors) Hin)
        as (before & after & Hp & _).
      rewrite Hp. apply in_or_app; right. apply in_or_app; left.
      simpl. auto.
  - exists (list_sum (map sum_errors (map summarize d))),
           (list_sum (map sum_warnings (map summarize d))).
    destruct (totals_add_up d Hsev) as [H1 H2].
    split; [apply summary_totals_eq|].
    split; [reflexivity|]. split; [reflexivity|].
    split; [assumption|]. split; [congruence|]. split.
    + unfold print_summary. rewrite summary_totals_eq.
      apply in_or_app; right. apply in_or_app; right. simpl. auto.
    + intros a b c Hrow.
      destruct (print_summary_rows_from d _ Hrow)
        as [[s Hs]|[(entry & _ & Hb)|[Hg|Hc]]];
        [discriminate | | now injection Hg as -> -> -> | discriminate].
      exfalso. unfold summary_block in Hb.
      apply in_app_or in Hb as [Hb|Hb]; [|apply in_app_or in Hb as [Hb|Hb]].
      * destruct Hb as [Hb|[Hb|[Hb|[]]]]; discriminate.
      * apply in_map_iff in Hb as (x & Hx & _). discriminate.
      * destruct (10 <? List.length (sorted_categories (summarize entry)))%nat;
          [destruct Hb as [Hb|[]]; discriminate | contradiction].
  - intros e w t Hrow.
    destruct (print_detailed_rows d _ Hrow) as [[s Hs]|([f v] & Hin & Hb)];
      [discriminate|].
    apply detailed_block_counts in Hb as (-> & -> & ->).
    now apply (Hadd f).
  - intros p e w t Hrow.
    destruct (print_summary_rows_from d _ Hrow)
      as [[s Hs]|[([f v] & Hin & Hb)|[Hg|Hc]]]; try discriminate.
    apply summary_block_file in Hb as (_ & -> & -> & ->).
    now apply (Hadd f).
Qed.

Lemma C6_counts_add_up_witness :
  In (sample_header, [issue_of sample_record; unused_variable_issue])
     (parse_lint_output two_issue_text)
  /\ In (SummaryFile "src/index.ts" 1 1 2)
        (print_summary (parse_lint_output two_issue_text))
  /\ (exists before after,
        print_detailed_output (parse_lint_output two_issue_text)
        = before ++ [DetailFile "src/index.ts"; DetailCounts 1 1 2] ++ after).
Proof.
  assert (H : In (sample_header, [issue_of sample_record; unused_variable_issue])
                 (parse_lint_output two_issue_text))
    by (vm_compute; left; reflexivity).
  split; [exact H|].
  pose proof (proj1 (C6_counts_add_up two_issue_text) sample_header
                [issue_of sample_record; unused_variable_issue] H) as T.
  split; [exact (proj2 (proj2 (proj2 (proj2 T)))) |
          exact (proj1 (proj2 (proj2 (proj2 T))))].
Defined.

Lemma descending_firstn_skipn {A : Type} (key : A -> nat) (n : nat)
  (l : list A) :
  descending key l ->
  descending key (firstn n l)
  /\ forall x y, In x (firstn n l) -> In y (skipn n l) -> key y <= key x.
Proof.
  intros H. apply descending_app. now rewrite firstn_skipn.
Qed.

Lemma list_sum_firstn_skipn (n : nat) (l : list nat) :
  list_sum (firstn n l) + list_sum (skipn n l) = list_sum l.
Proof. now rewrite <- list_sum_app, firstn_skipn. Qed.

Lemma sorted_categories_sum (lines : list string) (f : string)
  (errors : list issue) :
  Forall (parsed_issue lines) errors ->
  list_sum (map snd (sorted_categories (summarize (f, errors))))
  = List.length errors.
Proof.
  intros Hv. unfold sorted_categories; simpl.
  rewrite (Permutation_list_sum
             (Permutation_map snd (sorted_desc_perm snd _))).
  unfold category_breakdown. rewrite category_sum; [reflexivity|].
  eapply Forall_impl; [|exact Hv]. apply parsed_issue_has_token.
Qed.

Lemma In_keys_update {V : Type} (dflt : V) (g : V -> V) (d : dict V)
  (k0 k : string) :
  In k (keys (dict_update dflt g d k0)) <-> In k (keys d) \/ k = k0.
Proof.
  rewrite keys_dict_update.
  destruct (dict_get d k0) as [v|] eqn:Hg.
  - apply dict_get_In in Hg.
    split; [auto|]. intros [H| ->]; [assumption|].
    unfold keys. change k0 with (fst (k0, v)). now apply in_map.
  - rewrite in_app_iff; simpl. intuition congruence.
Qed.

Lemma category_keys (errors : list issue) (k : string) :
  forall cats,
    In k (keys (fold_left count_category errors cats))
    <-> In k (keys cats)
        \/ exists e, In e errors /\ last_token (issue_text e) = Some k.
Proof.
  induction errors as [|e l IH]; intros cats; simpl.
  - split; [auto | intros [H|(e & [] & _)]; exact H].
  - rewrite IH. unfold count_category, last_token.
    destruct (split_ws (issue_text e)) as [|p parts] eqn:Hs.
    + split.
      * intros [H|(e' & He' & Hk)]; [auto|]. right; exists e'; auto.
      * intros [H|(e' & [<-|He'] & Hk)]; [auto| |].
        -- rewrite Hs in Hk. discriminate.
        -- right; exists e'; auto.
    + unfold dict_incr. rewrite In_keys_update. split.
      * intros [[H| ->]|(e' & He' & Hk)]; [auto| |].
        -- right; exists e. rewrite Hs. auto.
        -- right; exists e'; auto.
      * intros [H|(e' & [<-|He'] & Hk)]; [auto| |].
        -- rewrite Hs in Hk. injection Hk as <-. auto.
        -- right; exists e'; auto.
Qed.

(** C7: in the summary view, the block of every file of a parsed mapping
    is printed as a whole, followed by a separator row, and its rows after
    the head are the categories sorted by count.  With at most 10 distinct
    rules there is one row per rule and no "... and N more rules" row.
    With more than 10, the block ends with the 10 rows of the highest
    counts, in non-increasing order of count, and one "more rules" row that
    counts the remaining rules and sums their occurrences; the ten counts
    and that sum add up to the total of the file.  Every "more rules" row
    of the view belongs to a file with more than 10 rules, so a mapping
    whose files all have at most 10 prints none. *)
Theorem C7_top_ten_categories (output : string) (f : string)
  (errors : list issue) :
  In (f, errors) (parse_lint_output output) ->
  let d := parse_lint_output output in
  let s := summarize (f, errors) in
  let sorted := sorted_categories s in
  NoDup (map fst sorted)
  /\ (forall k, In k (map fst sorted)
                <-> exists e, In e errors
                              /\ last_token (issue_text e) = Some k)
  /\ Permutation sorted (sum_categories s)
  /\ descending snd sorted
  /\ (List.length sorted <= 10 ->
      summary_block s = summary_head s ++ map category_row sorted
      /\ forall more remaining, ~ In (MoreRules more remaining) (summary_block s))
  /\ (10 < List.length sorted ->
      let top := firstn 10 sorted in
      let remaining := list_sum (map snd (skipn 10 sorted)) in
      summary_block s
      = summary_head s ++ map category_row top
        ++ [MoreRules (List.length sorted - 10) remaining]
      /\ List.length top = 10
      /\ descending snd top
      /\ (forall x y, In x top -> In y (skipn 10 sorted) -> snd y <= snd x)
      /\ list_sum (map snd top) + remaining = sum_total s
      /\ sum_total s = List.length errors)
  /\ (exists before after,
        print_summary d = before ++ summary_block s ++ after
        /\ match after with Plain _ :: _ => True | _ => False end)
  /\ (forall more remaining,
        In (MoreRules more remaining) (print_summary d) ->
        exists f' errors',
          In (f', errors') d
          /\ 10 < List.length (sorted_categories (summarize (f', errors')))
          /\ more
             = List.length (sorted_categories (summarize (f', errors'))) - 10
          /\ remaining
             = list_sum
                 (map snd
                    (skipn 10 (sorted_categories (summarize (f', errors')))))
          /\ list_sum
               (map snd
                  (firstn 10 (sorted_categories (summarize (f', errors')))))
             + remaining
             = List.length errors')
  /\ ((forall f' errors',
         In (f', errors') d ->
         List.length (sorted_categories (summarize (f', errors'))) <= 10) ->
      forall more remaining,
        ~ In (MoreRules more remaining) (print_summary d)).
Proof.
  intros Hin d s sorted.
  destruct (parsed_values _ _ _ Hin) as (_ & _ & Hv).
  assert (Hperm : Permutation sorted (sum_categories s))
    by apply sorted_desc_perm.
  assert (Hdesc : descending snd sorted) by apply sorted_desc_descending.
  assert (Hmore : forall more remaining,
             In (MoreRules more remaining) (print_summary d) ->
             exists f' errors',
               In (f', errors') d
               /\ 10 < List.length (sorted_categories (summarize (f', errors')))
               /\ more
                  = List.length (sorted_categories (summarize (f', errors')))
                    - 10
               /\ remaining
                  = list_sum
                      (map snd
                         (skipn 10
                            (sorted_categories (summarize (f', errors')))))
               /\ list_sum
                    (map snd
                       (firstn 10
                          (sorted_categories (summarize (f', errors')))))
                  + remaining
                  = List.length errors').
  { intros more remaining Hrow.
    destruct (print_summary_rows_from d _ Hrow)
      as [[t Ht]|[([f' errors'] & Hin' & Hb)|[Hg|Hc]]]; try discriminate.
    apply summary_block_more in Hb as (Hgt & Hm & Hr).
    exists f', errors'. repeat split; try assumption.
    rewrite Hr, <- firstn_map, <- skipn_map, list_sum_firstn_skipn.
    destruct (parsed_values _ _ _ Hin') as (_ & _ & Hv').
    exact (sorted_categories_sum _ f' errors' Hv'). }
  split; [|split; [|split; [assumption|split; [assumption|split;
    [|split; [|split; [|split; [exact Hmore|]]]]]]]].
  - eapply Permutation_NoDup;
      [symmetry; apply Permutation_map; exact Hperm|].
    apply (category_keys_NoDup errors []). constructor.
  - intros k. transitivity (In k (keys (sum_categories s))).
    + split; apply Permutation_in, Permutation_map;
        [exact Hperm | symmetry; exact Hperm].
    + unfold s; simpl. unfold category_breakdown.
      rewrite category_keys. simpl. tauto.
  - intros Hle. unfold summary_block. fold s. fold sorted.
    rewrite firstn_all2 by assumption.
    destruct (Nat.ltb_spec 10 (List.length sorted)) as [Hlt|_]; [lia|].
    rewrite app_nil_r. split; [reflexivity|].
    intros more remaining Hm. apply in_app_or in Hm as [Hm|Hm].
    + simpl in Hm. destruct Hm as [Hm|[Hm|[Hm|[]]]]; discriminate.
    + apply in_map_iff in Hm as (x & Hx & _). discriminate.
  - intros Hgt top remaining. unfold summary_block. fold s. fold sorted.
    destruct (Nat.ltb_spec 10 (List.length sorted)) as [_|Hle]; [|lia].
    destruct (descending_firstn_skipn snd 10 sorted Hdesc) as [Htop Hcut].
    repeat split; auto.
    + apply firstn_length_le. lia.
    + unfold top, remaining. rewrite <- !firstn_map, <- skipn_map.
      rewrite list_sum_firstn_skipn.
      exact (sorted_categories_sum _ f errors Hv).
  - exact (print_summary_split d (f, errors) Hin).
  - intros Hall more remaining Hrow.
    destruct (Hmore more remaining Hrow) as (f' & errors' & Hin' & Hgt & _).
    specialize (Hall f' errors' Hin'). lia.
Qed.

Lemma two_issue_parse :
  parse_lint_output two_issue_text
  = [(sample_header, [issue_of sample_record; unused_variable_issue])].
Proof. vm_compute. reflexivity. Qed.

Lemma C7_top_ten_categories_witness :
  (In (sample_header, eleven_issues) (parse_lint_output eleven_rules_text)
   /\ 10 < List.length
             (sorted_categories (summarize (sample_header, eleven_issues)))
   /\ In (MoreRules 1 1) (print_summary (parse_lint_output eleven_rules_text))
   /\ list_sum
        (map snd
           (firstn 10
              (sorted_categories (summarize (sample_header, eleven_issues)))))
      + 1 = 11)
  /\ (In (sample_header, [issue_of sample_record; unused_variable_issue])
         (parse_lint_output two_issue_text)
      /\ List.length
           (sorted_categories
              (summarize (sample_header,
                          [issue_of sample_record; unused_variable_issue])))
         <= 10
      /\ forall more remaining,
           ~ In (MoreRules more remaining)
                (print_summary (parse_lint_output two_issue_text))).
Proof.
  split.
  - assert (H : In (sample_header, eleven_issues)
                   (parse_lint_output eleven_rules_text))
      by (vm_compute; left; reflexivity).
    assert (Hgt : 10 < List.length
                         (sorted_categories
                            (summarize (sample_header, eleven_issues))))
      by (vm_compute; repeat constructor).
    pose proof (C7_top_ten_categories eleven_rules_text sample_header
                  eleven_issues H) as T.
    destruct T as (_ & _ & _ & _ & _ & Hbig & Hsplit & _).
    destruct (Hbig Hgt) as (Hblock & _ & _ & _ & Hsum & _).
    split; [exact H|]. split; [exact Hgt|]. split; [|exact Hsum].
    destruct Hsplit as (before & after & Hp & _).
    rewrite Hp, Hblock.
    apply in_or_app; right. apply in_or_app; left.
    apply in_or_app; right. apply in_or_app; right.
    left. reflexivity.
  - assert (H : In (sample_header,
                    [issue_of sample_record; unused_variable_issue])
                   (parse_lint_output two_issue_text))
      by (rewrite two_issue_parse; left; reflexivity).
    assert (Hle : List.length
                    (sorted_categories
                       (summarize (sample_header,
                                   [issue_of sample_record;
                                    unused_variable_issue])))
                  <= 10)
      by (vm_compute; repeat constructor).
    split; [exact H|]. split; [exact Hle|].
    pose proof (C7_top_ten_categories two_issue_text sample_header
                  [issue_of sample_record; unused_variable_issue] H) as T.
    destruct T as (_ & _ & _ & _ & _ & _ & _ & _ & Hnone).
    apply Hnone. intros f' errors' Hin.
    rewrite two_issue_parse in Hin. destruct Hin as [Hin|[]].
    injection Hin as <- <-. exact Hle.
Defined.

Lemma parsed_issues_records (lines : list string) (v : list issue) :
  Forall (parsed_issue lines) v ->
  exists records,
    v = map issue_of records
    /\ Forall (fun r => exists line, parse_issue line = Some r) records.
Proof.
  induction 1 as [|e v (line & r & _ & Hr & ->) _ (records & -> & IH)].
  - exists []; split; [reflexivity | constructor].
  - exists (r :: records); split; [reflexivity|].
    constructor; [now exists line | assumption].
Qed.

(** C8: for every record the parser builds, the last whitespace-delimited
    token of the text it stores is the record's rule; hence the categories
    the summary view counts from the stored texts are the histogram of the
    records' rule fields, for any list of such records and in particular
    for every file of a parsed mapping. *)
Theorem C8_last_token_is_rule :
  (forall line r,
      parse_issue line = Some r ->
      last_token (issue_text (issue_of r)) = Some (rule r))
  /\ (forall records,
        Forall (fun r => exists line, parse_issue line = Some r) records ->
        category_breakdown (map issue_of records) = rule_histogram records)
  /\ (forall output f errors,
        In (f, errors) (parse_lint_output output) ->
        exists records,
          errors = map issue_of records
          /\ sum_categories (summarize (f, errors)) = rule_histogram records).
Proof.
  assert (Hhist : forall records,
             Forall (fun r => exists line, parse_issue line = Some r) records ->
             category_breakdown (map issue_of records)
             = rule_histogram records).
  { intros records H. unfold category_breakdown, rule_histogram.
    apply category_breakdown_from.
    eapply Forall_impl; [|exact H].
    intros r [line Hr]. now apply (parse_issue_well_formed line). }
  split; [|split; [exact Hhist|]].
  - intros line r Hr.
    now apply last_token_error_text, (parse_issue_well_formed line).
  - intros output f errors Hin.
    destruct (parsed_values _ _ _ Hin) as (_ & _ & Hv).
    destruct (parsed_issues_records _ _ Hv) as (records & -> & Hrs).
    exists records. split; [reflexivity|]. simpl. now apply Hhist.
Qed.

Lemma C8_last_token_is_rule_witness :
  last_token (issue_text (issue_of sample_record)) = Some "some-rule".
Proof.
  exact (proj1 C8_last_token_is_rule sample_issue_line sample_record eq_refl).
Defined.

Lemma errors_kept_unless_diagnostic (st : parser_state) (line : string) :
  diagnostic_line st line = false ->
  errors_by_file (process_line st line) = errors_by_file st.
Proof.
  unfold diagnostic_line, process_line. intros H.
  destruct (file_path_line line).
  - now destruct (contains project_path line).
  - destruct (current_file st) as [f|]; [|reflexivity].
    now rewrite H.
Qed.

Lemma no_diagnostic_lines (ls : list string) :
  forall st,
    diagnostic_lines st ls = [] ->
    errors_by_file (parse_lines st ls) = errors_by_file st.
Proof.
  unfold parse_lines.
  induction ls as [|l ls IH]; intros st H; simpl in *; [reflexivity|].
  apply app_eq_nil in H as [Hl Hls].
  rewrite (IH _ Hls). apply errors_kept_unless_diagnostic.
  now destruct (diagnostic_line st l).
Qed.

(** Two ways to have no diagnostic line: no line matches the pattern, or
    no line ever sets the current file. *)
Lemma no_match_no_diagnostic (ls : list string) :
  (forall line, In line ls -> re_match issue_prefix_re line = None) ->
  forall st, diagnostic_lines st ls = [].
Proof.
  induction ls as [|l ls IH]; intros H st; simpl; [reflexivity|].
  rewrite IH by (intros; apply H; now right).
  unfold diagnostic_line, issue_candidate.
  rewrite (H l (or_introl eq_refl)).
  destruct (current_file st); [now rewrite andb_false_r | reflexivity].
Qed.

Lemma no_current_file_no_diagnostic (ls : list string) :
  (forall line, In line ls ->
                file_path_line line && contains project_path line = false) ->
  forall st, current_file st = None -> diagnostic_lines st ls = [].
Proof.
  induction ls as [|l ls IH]; intros H st Hst; simpl; [reflexivity|].
  unfold diagnostic_line at 1. rewrite Hst. simpl.
  apply IH; [intros; apply H; now right|].
  rewrite current_file_step, (H l (or_introl eq_refl)). exact Hst.
Qed.

(** C9: when the run has no diagnostic line, that is, no line on which a
    current file is set, the line is not blank and the issue pattern
    matches, the parser returns the empty dictionary, and [main] then
    writes its three logs, prints where they are and prints
    "No errors found!", and nothing else: no summary and no detailed
    report.  This covers the empty text, a text in which no line matches
    the pattern, and a text whose headers all lie outside the project. *)
Theorem C9_nothing_found (output timestamp : string) :
  diagnostic_lines initial_state (split_on newline output) = [] ->
  parse_lint_output output = []
  /\ main_after_lint output timestamp
     = log_effects output timestamp
       ++ [Console (Plain (nl ++ "No errors found!")%string)]
  /\ main output timestamp
     = Console (Plain "Running npm lint...")
       :: log_effects output timestamp
       ++ [Console (Plain (nl ++ "No errors found!")%string)].
Proof.
  intros H.
  assert (Hd : parse_lint_output output = [])
    by (unfold parse_lint_output; now rewrite no_diagnostic_lines).
  split; [assumption|].
  unfold main, main_after_lint. now rewrite Hd.
Qed.

Lemma C9_nothing_found_witness :
  (diagnostic_lines initial_state (split_on newline foreign_text) = []
   /\ parse_lint_output foreign_text = []
   /\ main_after_lint foreign_text "20260101_120000"
      = log_effects foreign_text "20260101_120000"
        ++ [Console (Plain (nl ++ "No errors found!")%string)])
  /\ (diagnostic_lines initial_state (split_on newline "") = []
      /\ parse_lint_output "" = []).
Proof.
  split.
  - assert (H : diagnostic_lines initial_state
                  (split_on newline foreign_text) = [])
      by (vm_compute; reflexivity).
    split; [exact H|].
    pose proof (C9_nothing_found foreign_text "20260101_120000" H) as T.
    exact (conj (proj1 T) (proj1 (proj2 T))).
  - assert (H : diagnostic_lines initial_state (split_on newline "") = [])
      by reflexivity.
    split; [exact H|].
    exact (proj1 (C9_nothing_found "" "20260101_120000" H)).
Defined.

Lemma startswith_shorter (a b : string) :
  forall s, startswith (a ++ b) s = true -> startswith a s = true.
Proof.
  induction a as [|x a IH]; intros [|c s] H; simpl in *; auto;
    try discriminate.
  apply andb_prop in H as [Hx H]. now rewrite Hx, (IH s).
Qed.

Lemma contains_shorter (a b s : string) :
  contains (a ++ b) s = true -> contains a s = true.
Proof.
  induction s as [|c s IH]; cbn [contains]; intros H;
    apply orb_prop in H as [H|H]; try discriminate.
  - now rewrite (startswith_shorter a b).
  - now rewrite (startswith_shorter a b).
  - rewrite (IH H). apply orb_true_r.
Qed.

Lemma contains_tsx_ts (s : string) :
  contains ".tsx" s = true -> contains ".ts" s = true.
Proof. apply (contains_shorter ".ts" "x"). Qed.

Lemma lstrip_head (s : string) :
  lstrip s = "" \/ starts_non_space (lstrip s) = true.
Proof.
  induction s as [|c s IH]; simpl; [now left|].
  destruct (is_space c) eqn:Hc; [exact IH|].
  right; simpl. now rewrite Hc.
Qed.

Lemma rstrip_head (s : string) :
  starts_non_space s = true -> starts_non_space (rstrip s) = true.
Proof.
  destruct s as [|c s]; [discriminate|]. simpl starts_non_space.
  intros Hc. cbn [rstrip].
  destruct (rstrip s); [|exact Hc].
  apply negb_true_iff in Hc. rewrite Hc. simpl. now rewrite Hc.
Qed.

Lemma strip_head (s : string) :
  strip s <> "" -> starts_non_space (strip s) = true.
Proof.
  unfold strip. destruct (lstrip_head s) as [->|H]; [now simpl|].
  intros _. now apply rstrip_head.
Qed.

(** Every key of the parser's result is the trimmed text of a line that
    took the file-path branch of the loop and contains the project path;
    the key itself is not empty, starts with a non-blank character,
    contains a [.ts] marker and the project path; and its list is not
    empty.  The file-path branch is the test of line 39 as Python reads
    it, which also takes indented lines that contain [.tsx]. *)
Lemma keys_come_from_file_path_lines (output : string) (k : string)
  (v : list issue) :
  In (k, v) (parse_lint_output output) ->
  (exists line,
      In line (split_on newline output)
      /\ file_path_line line = true
      /\ contains project_path line = true
      /\ k = strip line)
  /\ contains project_path k = true
  /\ contains ".ts" k = true
  /\ starts_non_space k = true
  /\ file_path_line k = true
  /\ v <> [].
Proof.
  intros H. destruct (parsed_values _ _ _ H) as (Hk & Hv & _).
  split; [exact Hk|].
  destruct Hk as (line & _ & Hfp & Hpp & ->).
  assert (Hp : contains project_path (strip line) = true)
    by (now apply contains_strip).
  assert (Hts : contains ".ts" (strip line) = true).
  { apply contains_strip; [reflexivity | reflexivity |].
    unfold file_path_line in Hfp. apply orb_prop in Hfp as [Hfp|Hfp].
    - now apply andb_prop in Hfp as [_ Hfp].
    - now apply contains_tsx_ts. }
  assert (Hne : strip line <> "").
  { intros E. rewrite E in Hp. discriminate. }
  assert (Hhd : starts_non_space (strip line) = true) by (now apply strip_head).
  repeat split; try assumption.
  unfold file_path_line. rewrite Hts.
  destruct (strip line) as [|c s] eqn:E; [contradiction|].
  simpl in Hhd. apply negb_true_iff in Hhd.
  assert (Hc : startswith " " (String c s) = false).
  { cbn [startswith].
    destruct (Ascii.eqb_spec " "%char c) as [<-|]; [discriminate|].
    reflexivity. }
  rewrite Hc.
  assert (Hs : truthy (strip (String c s)) = true).
  { apply truthy_true. unfold strip. cbn [lstrip]. rewrite Hhd.
    cbn [rstrip]. destruct (rstrip s); [rewrite Hhd|]; discriminate. }
  now rewrite Hs.
Qed.

(** C10, evaluated where it fails: in [misfiled_text] the key under which
    the issue is filed is the trimmed text of [indented_tsx_line], a line
    that starts with a space and passes the issue pattern, so it is no
    header line; it is the only line of the text with that trimmed text.
    The test of line 39, read by Python as
    [(A and B and '.ts' in line) or ('.tsx' in line)], took it for a file
    path.  The list under the key is not empty. *)
Theorem C10_key_is_an_indented_issue_line :
  parse_lint_output misfiled_text
  = [(strip indented_tsx_line, [issue_of sample_record])]
  /\ startswith " " indented_tsx_line = true
  /\ issue_candidate sample_header indented_tsx_line = true
  /\ (forall line,
        In line (split_on newline misfiled_text) ->
        strip line = strip indented_tsx_line ->
        line = indented_tsx_line /\ startswith " " line = true).
Proof.
  split; [vm_compute; reflexivity|].
  split; [reflexivity|]. split; [vm_compute; reflexivity|].
  intros line H. vm_compute in H.
  destruct H as [<-|[<-|[<-|[]]]]; intros E; vm_compute in E;
    try discriminate.
  split; reflexivity.
Qed.

(** ** Worked inputs *)

(** Equal keys keep their order under [sorted(..., reverse=True)]. *)
Example sorted_desc_keeps_ties :
  sorted_desc fst [(1, "a"); (3, "b"); (1, "c"); (3, "d"); (2, "e")]
  = [(3, "b"); (3, "d"); (2, "e"); (1, "a"); (1, "c")].
Proof. reflexivity. Qed.

(** The lazy message group gives way to the rule: with nothing but a rule
    after the severity, the message is one blank, trimmed to nothing. *)
Example message_may_be_empty :
  parse_issue "  1:2  error   rule" = Some (mkRecord 1 "2" "error" "" "rule").
Proof. vm_compute. reflexivity. Qed.

(** The first pattern accepts a prefix that the second one rejects. *)
Example prefix_only :
  issue_candidate sample_header "  1:2  errors   rule" = true
  /\ parse_issue "  1:2  errors   rule" = None.
Proof. split; vm_compute; reflexivity. Qed.


(** Eleven issues with eleven rules under one header: the block shows ten
    category rows and collapses the last rule into one row. *)
Example eleven_rules_collapsed :
  let line (n : string) := ("  1:1  error  m  r" ++ n)%string in
  let text :=
    String.concat nl
      (sample_header
       :: map line ["1"; "2"; "3"; "4"; "5"; "6"; "7"; "8"; "9"; "10"; "11"]) in
  match parse_lint_output text with
  | [entry] =>
      skipn 12 (summary_block (summarize entry))
      = [CategoryLine "r10" 1; MoreRules 1 1]
  | _ => False
  end.
Proof. vm_compute. reflexivity. Qed.

(** * Further properties of the script *)

(** ** The mapping is the trace of the loop, grouped by file *)

Lemma process_line_emitted (st : parser_state) (line : string) :
  errors_by_file (process_line st line)
  = match emitted st line with
    | Some p => file_issue (errors_by_file st) p
    | None => errors_by_file st
    end.
Proof.
  unfold process_line, emitted.
  destruct (file_path_line line).
  - now destruct (contains project_path line).
  - destruct (current_file st) as [f|]; [|reflexivity].
    destruct (issue_candidate f line); [|reflexivity].
    now destruct (parse_issue line).
Qed.

Lemma parse_lines_trace (ls : list string) :
  forall st,
    errors_by_file (parse_lines st ls)
    = fold_left file_issue (trace st ls) (errors_by_file st).
Proof.
  unfold parse_lines.
  induction ls as [|l ls IH]; intros st; simpl; [reflexivity|].
  rewrite IH, process_line_emitted.
  now destruct (emitted st l).
Qed.

Lemma filed_get (evs : list (string * issue)) (k : string) :
  forall d,
    dict_get (fold_left file_issue evs d) k
    = match dict_get d k, filed_under k evs with
      | Some v, new => Some (v ++ new)
      | None, [] => None
      | None, new => Some new
      end.
Proof.
  induction evs as [|[f e] evs IH]; intros d; simpl.
  - destruct (dict_get d k); [now rewrite app_nil_r | reflexivity].
  - rewrite IH. unfold file_issue at 1, filed_under; simpl.
    destruct (dict_append_order d f e) as (Hsame & _ & Hother).
    destruct (String.eqb_spec f k) as [->|Hne].
    + rewrite Hsame. simpl.
      destruct (dict_get d k); [now rewrite <- app_assoc | reflexivity].
    + rewrite Hother by congruence. reflexivity.
Qed.

Lemma mem_In (k : string) (l : list string) : mem k l = true <-> In k l.
Proof.
  unfold mem. rewrite existsb_exists. split.
  - intros (x & Hx & E). apply String.eqb_eq in E. now subst.
  - intros H. exists k. split; [assumption | apply String.eqb_refl].
Qed.

Lemma dict_get_mem {V : Type} (d : dict V) (k : string) :
  mem k (keys d) = match dict_get d k with Some _ => true | None => false end.
Proof.
  unfold mem. induction d as [|[k0 v0] d IH]; simpl; [reflexivity|].
  rewrite (String.eqb_sym k k0).
  destruct (String.eqb k0 k); simpl; [reflexivity | exact IH].
Qed.

Lemma filter_twice {A : Type} (f g : A -> bool) (l : list A) :
  filter f (filter g l) = filter (fun x => f x && g x) l.
Proof.
  induction l as [|x l IH]; simpl; [reflexivity|].
  destruct (g x); simpl; rewrite ?andb_true_r, ?andb_false_r.
  - destruct (f x); now rewrite IH.
  - exact IH.
Qed.

Lemma filed_keys (evs : list (string * issue)) :
  forall d,
    keys (fold_left file_issue evs d)
    = keys d
      ++ filter (fun k => negb (mem k (keys d))) (first_seen (map fst evs)).
Proof.
  induction evs as [|[f e] evs IH]; intros d.
  - simpl. now rewrite app_nil_r.
  - cbn [fold_left map fst first_seen filter]. rewrite IH.
    unfold file_issue; cbn [fst snd].
    destruct (dict_append_order d f e) as (_ & Hkeys & _).
    rewrite Hkeys, filter_twice, (dict_get_mem d f).
    destruct (dict_get d f) as [v|] eqn:Hg; cbn [negb].
    + f_equal. apply filter_ext_in.
      intros k _. destruct (String.eqb_spec k f) as [->|]; simpl;
        rewrite ?(dict_get_mem d f), ?Hg; simpl;
        rewrite ?andb_true_r, ?andb_false_r; reflexivity.
    + rewrite <- app_assoc. simpl. do 2 f_equal.
      apply filter_ext_in.
      intros k _. unfold mem. rewrite existsb_app. simpl.
      now rewrite orb_false_r, negb_orb, (String.eqb_sym k f).
Qed.

(** The result of the parser has the files in the order in which each
    first received an issue, no file twice, and under each file exactly the
    issues the loop filed for it, in the order it met them; a file that
    received none is absent.  Membership in the result and lookup agree. *)
Theorem parse_groups_the_trace (output : string) :
  let evs := trace initial_state (split_on newline output) in
  let d := parse_lint_output output in
  keys d = first_seen (map fst evs)
  /\ NoDup (keys d)
  /\ (forall k,
        dict_get d k
        = match filed_under k evs with [] => None | v => Some v end)
  /\ (forall k v, In (k, v) d <-> dict_get d k = Some v).
Proof.
  intros evs d.
  assert (Hd : d = fold_left file_issue evs []).
  { unfold d, parse_lint_output. now rewrite parse_lines_trace. }
  assert (Hnd : NoDup (keys d))
    by (now destruct (parse_lint_output_ok output) as (_ & Hnd & _)).
  split; [|split; [assumption|split]].
  - rewrite Hd, filed_keys. simpl. apply filter_true.
  - intros k. rewrite Hd, filed_get. simpl.
    now destruct (filed_under k evs).
  - intros k v. split; [|apply dict_get_In].
    clear Hd. induction d as [|[k0 v0] d IH]; simpl; [contradiction|].
    inversion Hnd as [|? ? Hnotin Hnd']; subst.
    intros [[= -> ->]|Hin]; [now rewrite String.eqb_refl|].
    destruct (String.eqb_spec k0 k) as [->|]; [|now apply IH].
    exfalso. apply Hnotin. unfold keys.
    change k with (fst (k, v)). now apply in_map.
Qed.

Lemma parse_lines_grows (st : parser_state) (ls : list string) :
  let d := errors_by_file st in
  let d' := errors_by_file (parse_lines st ls) in
  prefix_of (keys d) (keys d')
  /\ (forall k v, dict_get d k = Some v ->
                  exists v', dict_get d' k = Some v'
                             /\ v' = v ++ filed_under k (trace st ls))
  /\ (forall k, dict_get d' k = None -> dict_get d k = None).
Proof.
  intros d d'. unfold d'. rewrite parse_lines_trace. fold d.
  split; [|split].
  - rewrite filed_keys. now eexists.
  - intros k v Hk. rewrite filed_get, Hk. now eexists.
  - intros k. rewrite filed_get.
    destruct (dict_get d k); [discriminate | reflexivity].
Qed.

(** Whatever state the loop starts from, a run of lines only extends it:
    the keys already there stay in front, in their order, and every list
    already there stays an initial segment of the new list. *)
Theorem parse_lines_only_extends (st : parser_state) (ls : list string) :
  let d := errors_by_file st in
  let d' := errors_by_file (parse_lines st ls) in
  prefix_of (keys d) (keys d')
  /\ (forall k v, dict_get d k = Some v ->
                  exists v', dict_get d' k = Some v'
                             /\ v' = v ++ filed_under k (trace st ls))
  /\ (forall k, dict_get d' k = None -> dict_get d k = None).
Proof. exact (parse_lines_grows st ls). Qed.

(** ** Lines *)

Lemma split_on_nonempty (sep : ascii) (s : string) : split_on sep s <> [].
Proof.
  destruct s as [|c s]; simpl; [discriminate|].
  destruct (Ascii.eqb c sep); [discriminate|].
  destruct (split_on sep s); discriminate.
Qed.

Lemma split_on_append (sep : ascii) (a b : string) :
  split_on sep (a ++ String sep b) = split_on sep a ++ split_on sep b.
Proof.
  induction a as [|c a IH]; simpl.
  - now rewrite Ascii.eqb_refl.
  - destruct (Ascii.eqb c sep); [now rewrite IH|].
    rewrite IH. pose proof (split_on_nonempty sep a) as Hne.
    destruct (split_on sep a); [contradiction | reflexivity].
Qed.

Lemma split_on_lines (sep : ascii) (s : string) :
  Forall (fun l => all_chars (fun c => negb (Ascii.eqb c sep)) l = true)
         (split_on sep s).
Proof.
  induction s as [|c s IH]; simpl; [now repeat constructor|].
  destruct (Ascii.eqb c sep) eqn:Hc; [now constructor|].
  destruct (split_on sep s) as [|w ws]; [repeat constructor; simpl; now rewrite Hc|].
  inversion IH as [|? ? Hw Hws]; subst.
  constructor; [simpl; now rewrite Hc, Hw | assumption].
Qed.

Lemma concat_split_on (s : string) :
  String.concat nl (split_on newline s) = s.
Proof.
  induction s as [|c s IH]; simpl; [reflexivity|].
  pose proof (split_on_nonempty newline s) as Hne.
  destruct (Ascii.eqb_spec c newline) as [->|Hc].
  - destruct (split_on newline s) as [|w ws]; [contradiction|].
    now rewrite <- IH.
  - destruct (split_on newline s) as [|w ws]; [contradiction|].
    rewrite <- IH. now destruct ws.
Qed.

(** The lines the loop sees are free of newlines, every one consists of
    characters that [.] matches, and joined by newlines they give back the
    text: nothing of the output is lost or invented by the split. *)
Theorem lines_of_output (output : string) :
  let lines := split_on newline output in
  lines <> []
  /\ Forall (fun l => all_chars dot l = true) lines
  /\ String.concat nl lines = output.
Proof.
  intros lines. split; [apply split_on_nonempty|].
  split; [apply split_on_lines | apply concat_split_on].
Qed.

(** Parsing a text that continues after a newline is parsing the first
    part and then the rest from the state reached, so the mapping of the
    first part is only extended.  [run_lint] returns stdout followed by
    stderr: when stdout ends with a newline, the lines of stderr are read
    with the current file that stdout left. *)
Theorem parse_continues_after_newline (st : parser_state) (a b : string) :
  parse_lines st (split_on newline (a ++ nl ++ b))
  = parse_lines (parse_lines st (split_on newline a)) (split_on newline b)
  /\ prefix_of (keys (parse_lint_output a))
               (keys (parse_lint_output (a ++ nl ++ b)))
  /\ (forall k v, dict_get (parse_lint_output a) k = Some v ->
        exists v', dict_get (parse_lint_output (a ++ nl ++ b)) k
                   = Some (v ++ v')).
Proof.
  assert (H : forall s, parse_lines s (split_on newline (a ++ nl ++ b))
                        = parse_lines (parse_lines s (split_on newline a))
                                      (split_on newline b)).
  { intros s. change (a ++ nl ++ b)%string with (a ++ String newline b)%string.
    rewrite split_on_append. unfold parse_lines. apply fold_left_app. }
  split; [apply H|].
  unfold parse_lint_output. rewrite H.
  destruct (parse_lines_grows
              (parse_lines initial_state (split_on newline a))
              (split_on newline b)) as (Hk & Hv & _).
  split; [exact Hk|].
  intros k v Hg. destruct (Hv k v Hg) as (v' & Hg' & ->). eauto.
Qed.

(** ** The matcher finds a match whenever the pattern has one *)

Lemma drop_prefix_append (t s : string) :
  drop_prefix t (t ++ s) = Some s.
Proof.
  induction t as [|a t IH]; simpl; [reflexivity|].
  now rewrite Ascii.eqb_refl.
Qed.

Lemma greedy_complete {A : Type} (p : ascii -> bool)
  (k : string -> option A) (rest : string) :
  k rest <> None ->
  forall pre, all_chars p pre = true -> greedy p (pre ++ rest) k <> None.
Proof.
  intros Hk. induction pre as [|c pre IH]; simpl; intros Hp.
  - destruct rest as [|c s]; simpl; [assumption|].
    destruct (p c); [|assumption].
    destruct (greedy p s k); [discriminate | assumption].
  - apply andb_prop in Hp as [Hc Hp]. rewrite Hc.
    specialize (IH Hp).
    destruct (greedy p (pre ++ rest) k); [discriminate | contradiction].
Qed.

Lemma lazy_complete {A : Type} (p : ascii -> bool)
  (k : string -> option A) (rest : string) :
  k rest <> None ->
  forall pre, all_chars p pre = true -> lazy_ p (pre ++ rest) k <> None.
Proof.
  intros Hk. induction pre as [|c pre IH]; simpl; intros Hp.
  - destruct rest as [|c s]; simpl.
    + destruct (k ""); [discriminate | contradiction].
    + destruct (k (String c s)); [discriminate | contradiction].
  - apply andb_prop in Hp as [Hc Hp]. rewrite Hc.
    destruct (k (String c (pre ++ rest))); [discriminate | now apply IH].
Qed.

Theorem run_complete (whole : string) (r : regex) :
  forall pre rest new g k,
    matches whole r pre rest new ->
    k rest (new ++ g) <> None ->
    run whole r (pre ++ rest) g k <> None.
Proof.
  induction r as [| |c|t|p|p|r1 IH1|r1 IH1 r2 IH2|r1 IH1 r2 IH2|n r1 IH1];
    simpl; intros pre rest new g k Hm Hk.
  - destruct Hm as (-> & -> & Hlen). simpl.
    rewrite Hlen, Nat.eqb_refl. exact Hk.
  - destruct Hm as (-> & -> & [->| ->]); simpl; exact Hk.
  - destruct Hm as (-> & ->). simpl. rewrite Ascii.eqb_refl. exact Hk.
  - destruct Hm as (-> & ->). rewrite drop_prefix_append. exact Hk.
  - destruct Hm as (Hne & Hp & ->).
    destruct pre as [|c pre]; [contradiction|]. simpl in *.
    apply andb_prop in Hp as [Hc Hp]. rewrite Hc.
    now apply greedy_complete.
  - destruct Hm as (Hne & Hp & ->).
    destruct pre as [|c pre]; [contradiction|]. simpl in *.
    apply andb_prop in Hp as [Hc Hp]. rewrite Hc.
    now apply lazy_complete.
  - destruct (run whole r1 (pre ++ rest) g k) eqn:H1; [discriminate|].
    destruct Hm as [(-> & ->)|Hm]; [exact Hk|].
    exfalso. now apply (IH1 _ _ _ g k Hm Hk).
  - destruct (run whole r1 (pre ++ rest) g k) eqn:H1; [discriminate|].
    destruct Hm as [Hm|Hm]; [|now apply (IH2 _ _ new)].
    exfalso. now apply (IH1 _ _ _ g k Hm Hk).
  - destruct Hm as (a & b & n1 & n2 & -> & -> & Hm1 & Hm2).
    rewrite append_assoc. apply (IH1 _ _ n1); [assumption|].
    apply (IH2 _ _ n2); [assumption|]. now rewrite app_assoc.
  - destruct Hm as (n1 & -> & Hm).
    apply (IH1 _ _ n1); [assumption|].
    now rewrite consumed_append.
Qed.

Corollary re_match_complete (r : regex) (pre rest : string) (new : groups) :
  matches (pre ++ rest) r pre rest new -> re_match r (pre ++ rest) <> None.
Proof.
  intros Hm. unfold re_match.
  apply (run_complete _ _ _ _ new); [assumption | discriminate].
Qed.

Lemma matches_severity (whole sev rest : string) :
  sev = "error" \/ sev = "warning" ->
  matches whole severity_re sev rest [].
Proof. intros [->| ->]; simpl; auto. Qed.

Lemma matches_rule (whole rl rest : string) :
  rl <> "" -> all_chars non_space rl = true ->
  matches whole (Seq (Opt (Chr "@")) (Rep1 non_space)) rl rest [].
Proof.
  intros Hne Hp. simpl. exists "", rl, [], []. simpl. auto 8.
Qed.

(** [issue_re] accepts exactly the lines of the shape: blanks, digits, a
    colon, digits, blanks, "error" or "warning", blanks, a message without
    newline, blanks, a rule without blanks, and at most a final newline. *)
Lemma issue_re_shape (line : string) :
  re_match issue_re line <> None <-> issue_shape line.
Proof.
  split.
  - destruct (re_match issue_re line) as [g|] eqn:Hg; [intros _|congruence].
    apply re_match_sound in Hg. destruct Hg as (pre & rest & Hline & Hm).
    unfold issue_re in Hm. simpl in Hm.
    destruct Hm as (? & ? & ? & ? & -> & _ & (-> & _) & Hm).
    destruct Hm as (w1 & ? & ? & ? & -> & _ & (Hw1 & Hw1' & _) & Hm).
    destruct Hm as (d1 & ? & ? & ? & -> & _ & (? & _ & Hd1 & Hd1' & _) & Hm).
    destruct Hm as (? & ? & ? & ? & -> & _ & (-> & _) & Hm).
    destruct Hm as (d2 & ? & ? & ? & -> & _ & (? & _ & Hd2 & Hd2' & _) & Hm).
    destruct Hm as (w2 & ? & ? & ? & -> & _ & (Hw2 & Hw2' & _) & Hm).
    destruct Hm as (sev & ? & ? & ? & -> & _ & (? & _ & Hsev) & Hm).
    destruct Hm as (w3 & ? & ? & ? & -> & _ & (Hw3 & Hw3' & _) & Hm).
    destruct Hm as (msg & ? & ? & ? & -> & _ & (? & _ & Hmsg & Hmsg' & _) & Hm).
    destruct Hm as (w4 & ? & ? & ? & -> & _ & (Hw4 & Hw4' & _) & Hm).
    destruct Hm as (rl & ? & ? & ? & -> & _ & (? & _ & Hrl) & (-> & _ & Htail)).
    destruct Hrl as (a & b & ? & ? & -> & _ & Hopt & (Hb & Hb' & _)).
    exists w1, d1, d2, w2, sev, w3, msg, w4, (a ++ b)%string, rest.
    split.
    { rewrite Hline. repeat first [rewrite append_assoc | progress simpl].
      reflexivity. }
    repeat split; auto.
    + destruct Hsev as [[? _]|[? _]]; auto.
    + destruct Hopt as [[-> _]|[-> _]]; [assumption | discriminate].
    + rewrite all_chars_append.
      destruct Hopt as [[-> _]|[-> _]]; simpl; assumption.
  - intros (w1 & d1 & d2 & w2 & sev & w3 & msg & w4 & rl & tail
            & -> & Hw1 & Hd1 & Hd2 & Hw2 & Hsev & Hw3 & Hmsg & Hw4 & Hrl
            & Htail).
    set (pre := (w1 ++ d1 ++ ":" ++ d2 ++ w2 ++ sev ++ w3 ++ msg ++ w4
                 ++ rl)%string).
    replace (w1 ++ d1 ++ ":" ++ d2 ++ w2 ++ sev ++ w3 ++ msg ++ w4 ++ rl
             ++ tail)%string with (pre ++ tail)%string
      by (unfold pre; repeat rewrite append_assoc; reflexivity).
    apply (re_match_complete _ _ _
             [(5, rl); (4, msg); (3, sev); (2, d2); (1, d1)]).
    unfold issue_re, pre. simpl.
    exists "", (w1 ++ d1 ++ ":" ++ d2 ++ w2 ++ sev ++ w3 ++ msg ++ w4
                ++ rl)%string, [], [(5, rl); (4, msg); (3, sev); (2, d2); (1, d1)].
    split; [reflexivity|]. split; [reflexivity|].
    split; [simpl; auto|].
    exists w1, (d1 ++ ":" ++ d2 ++ w2 ++ sev ++ w3 ++ msg ++ w4 ++ rl)%string,
      [], [(5, rl); (4, msg); (3, sev); (2, d2); (1, d1)].
    split; [reflexivity|]. split; [reflexivity|].
    split; [tauto|].
    exists d1, (":" ++ d2 ++ w2 ++ sev ++ w3 ++ msg ++ w4 ++ rl)%string,
      [(1, d1)], [(5, rl); (4, msg); (3, sev); (2, d2)].
    split; [reflexivity|]. split; [reflexivity|].
    split; [exists []; tauto|].
    exists ":", (d2 ++ w2 ++ sev ++ w3 ++ msg ++ w4 ++ rl)%string,
      [], [(5, rl); (4, msg); (3, sev); (2, d2)].
    split; [reflexivity|]. split; [reflexivity|].
    split; [auto|].
    exists d2, (w2 ++ sev ++ w3 ++ msg ++ w4 ++ rl)%string,
      [(2, d2)], [(5, rl); (4, msg); (3, sev)].
    split; [reflexivity|]. split; [reflexivity|].
    split; [exists []; tauto|].
    exists w2, (sev ++ w3 ++ msg ++ w4 ++ rl)%string,
      [], [(5, rl); (4, msg); (3, sev)].
    split; [reflexivity|]. split; [reflexivity|].
    split; [tauto|].
    exists sev, (w3 ++ msg ++ w4 ++ rl)%string, [(3, sev)], [(5, rl); (4, msg)].
    split; [reflexivity|]. split; [reflexivity|].
    split; [exists []; split; [reflexivity | now apply matches_severity]|].
    exists w3, (msg ++ w4 ++ rl)%string, [], [(5, rl); (4, msg)].
    split; [reflexivity|]. split; [reflexivity|].
    split; [tauto|].
    exists msg, (w4 ++ rl)%string, [(4, msg)], [(5, rl)].
    split; [reflexivity|]. split; [reflexivity|].
    split; [exists []; tauto|].
    exists w4, rl, [], [(5, rl)].
    split; [reflexivity|]. split; [reflexivity|].
    split; [tauto|].
    exists rl, "", [(5, rl)], [].
    split; [now rewrite append_nil_r|]. split; [reflexivity|].
    split; [exists []; split; [reflexivity | now apply matches_rule]|].
    auto.
Qed.

(** ** Blank text and trimmed text *)

Lemma lstrip_blank (s : string) :
  lstrip s = "" <-> all_chars is_space s = true.
Proof.
  induction s as [|c s IH]; simpl; [tauto|].
  destruct (is_space c); simpl; [exact IH|].
  split; discriminate.
Qed.

Lemma rstrip_blank (s : string) :
  rstrip s = "" <-> all_chars is_space s = true.
Proof.
  induction s as [|c s IH]; simpl; [tauto|].
  destruct (rstrip s) as [|d r].
  - destruct (is_space c); simpl; [tauto|]. split; discriminate.
  - split; [discriminate|]. intros H. apply andb_prop in H as [_ H].
    apply IH in H. discriminate.
Qed.

Lemma all_space_lstrip (s : string) :
  all_chars is_space (lstrip s) = true -> all_chars is_space s = true.
Proof.
  induction s as [|c s IH]; simpl; [auto|].
  destruct (is_space c) eqn:Hc; simpl; [exact IH|].
  now rewrite Hc.
Qed.

Lemma strip_blank (s : string) :
  strip s = "" <-> all_chars is_space s = true.
Proof.
  unfold strip. rewrite rstrip_blank. split.
  - apply all_space_lstrip.
  - intros H. apply lstrip_blank in H. now rewrite H.
Qed.

Lemma rstrip_ends (s : string) :
  rstrip s = "" \/ ends_non_space (rstrip s) = true.
Proof.
  induction s as [|c s IH]; simpl; [now left|].
  destruct (rstrip s) as [|d r].
  - destruct (is_space c) eqn:Hc; [now left|].
    right; simpl. now rewrite Hc.
  - right. destruct IH as [IH|IH]; [discriminate | exact IH].
Qed.

Lemma rstrip_fixed (s : string) :
  ends_non_space s = true -> rstrip s = s.
Proof.
  induction s as [|c s IH]; [discriminate|].
  destruct s as [|d s].
  - simpl. intros H. apply negb_true_iff in H. now rewrite H.
  - intros H. change (ends_non_space (String d s) = true) in H.
    cbn [rstrip]. cbn [rstrip] in IH. now rewrite (IH H).
Qed.

Lemma lstrip_fixed (s : string) :
  starts_non_space s = true -> lstrip s = s.
Proof.
  destruct s as [|c s]; [discriminate|]. simpl.
  intros H. apply negb_true_iff in H. now rewrite H.
Qed.

(** [strip] gives a text with no blank at either end, or the empty text
    exactly when it is given only blanks; trimming twice changes nothing.
    The current file and the message of every record are such texts. *)
Theorem strip_is_trimmed (s : string) :
  strip (strip s) = strip s
  /\ (strip s = "" <-> all_chars is_space s = true)
  /\ (strip s <> "" ->
      starts_non_space (strip s) = true /\ ends_non_space (strip s) = true).
Proof.
  assert (H : strip s <> "" ->
              starts_non_space (strip s) = true
              /\ ends_non_space (strip s) = true).
  { intros Hne. split; [now apply strip_head|].
    unfold strip in *. destruct (rstrip_ends (lstrip s)); tauto. }
  split; [|split; [apply strip_blank | exact H]].
  destruct (strip s) as [|c t] eqn:E; [reflexivity|].
  destruct H as [Hs He]; [discriminate|].
  unfold strip at 1. now rewrite (lstrip_fixed _ Hs), (rstrip_fixed _ He).
Qed.

Lemma blank_contains (t s : string) :
  starts_non_space t = true -> all_chars is_space s = true ->
  contains t s = false.
Proof.
  destruct t as [|a t]; [discriminate|]. simpl starts_non_space.
  intros Ha. apply negb_true_iff in Ha.
  induction s as [|c s IH]; simpl; [reflexivity|].
  intros H. apply andb_prop in H as [Hc Hs].
  destruct (Ascii.eqb_spec a c) as [->|]; [congruence|].
  simpl. now apply IH.
Qed.

(** A line of blanks only, the empty line among them, changes nothing:
    it neither names a file nor ends the current one. *)
Theorem blank_line_ignored (st : parser_state) (line : string) :
  all_chars is_space line = true -> process_line st line = st.
Proof.
  intros H. unfold process_line, file_path_line, issue_candidate.
  rewrite (proj2 (strip_blank line) H).
  rewrite (blank_contains ".tsx" line eq_refl H). simpl.
  destruct (current_file st); [|reflexivity].
  now rewrite andb_false_r.
Qed.

Lemma blank_line_ignored_witness :
  all_chars is_space "   " = true
  /\ process_line (mkState (Some sample_header) []) "   "
     = mkState (Some sample_header) [].
Proof.
  split; [reflexivity|].
  exact (blank_line_ignored (mkState (Some sample_header) []) "   " eq_refl).
Defined.

(** ** Which lines are recorded *)

Lemma digit_not_space (c : ascii) : is_digit c = true -> is_space c = false.
Proof.
  destruct c as [[] [] [] [] [] [] [] []]; vm_compute; congruence.
Qed.

Lemma issue_shape_not_blank (line : string) :
  issue_shape line -> truthy (strip line) = true.
Proof.
  intros (w1 & d1 & d2 & w2 & sev & w3 & msg & w4 & rl & tail
          & -> & _ & [Hne Hd] & _).
  apply truthy_true. rewrite strip_blank. intros H.
  rewrite !all_chars_append in H.
  apply andb_prop in H as [_ H]. apply andb_prop in H as [H _].
  destruct d1 as [|c d1]; [contradiction|]. simpl in *.
  apply andb_prop in Hd as [Hc _]. apply digit_not_space in Hc.
  rewrite Hc in H. discriminate.
Qed.

Lemma issue_shape_prefix (line : string) :
  issue_shape line -> re_match issue_prefix_re line <> None.
Proof.
  intros (w1 & d1 & d2 & w2 & sev & w3 & msg & w4 & rl & tail
          & -> & Hw1 & Hd1 & Hd2 & Hw2 & Hsev & _).
  set (rest := (w3 ++ msg ++ w4 ++ rl ++ tail)%string).
  set (pre := (w1 ++ d1 ++ ":" ++ d2 ++ w2 ++ sev)%string).
  replace (w1 ++ d1 ++ ":" ++ d2 ++ w2 ++ sev ++ rest)%string
    with (pre ++ rest)%string
    by (unfold pre; repeat first [rewrite append_assoc | progress simpl];
        reflexivity).
  apply (re_match_complete _ _ _ [(1, sev)]).
  unfold issue_prefix_re, pre. simpl.
  exists "", (w1 ++ d1 ++ ":" ++ d2 ++ w2 ++ sev)%string, [], [(1, sev)].
  split; [reflexivity|]. split; [reflexivity|]. split; [simpl; auto|].
  exists w1, (d1 ++ ":" ++ d2 ++ w2 ++ sev)%string, [], [(1, sev)].
  split; [reflexivity|]. split; [reflexivity|]. split; [tauto|].
  exists d1, (":" ++ d2 ++ w2 ++ sev)%string, [], [(1, sev)].
  split; [reflexivity|]. split; [reflexivity|]. split; [tauto|].
  exists ":", (d2 ++ w2 ++ sev)%string, [], [(1, sev)].
  split; [reflexivity|]. split; [reflexivity|]. split; [auto|].
  exists d2, (w2 ++ sev)%string, [], [(1, sev)].
  split; [reflexivity|]. split; [reflexivity|]. split; [tauto|].
  exists w2, sev, [], [(1, sev)].
  split; [reflexivity|]. split; [reflexivity|]. split; [tauto|].
  exists []. split; [reflexivity | now apply matches_severity].
Qed.

Lemma parse_issue_shape (line : string) :
  parse_issue line <> None <-> issue_shape line.
Proof.
  rewrite <- issue_re_shape. unfold parse_issue.
  destruct (re_match issue_re line) as [g|] eqn:Hg; [|tauto].
  destruct (parse_issue_total _ _ Hg) as [r Hr].
  unfold parse_issue in Hr. rewrite Hg in Hr. rewrite Hr.
  split; discriminate.
Qed.

(** The lines [parse_issue] decomposes are exactly the lines of the shape
    [issue_shape]; every other line is skipped without a trace. *)
Theorem decomposed_lines (line : string) :
  parse_issue line <> None <-> issue_shape line.
Proof. exact (parse_issue_shape line). Qed.

Lemma raises_on_long_number (st : parser_state) (line : string) :
  raises_on st line = true ->
  file_path_line line = false
  /\ diagnostic_line st line = true
  /\ exists g digits,
       re_match issue_re line = Some g /\ group 1 g = Some digits
       /\ int_max_str_digits < String.length digits.
Proof.
  unfold raises_on, int_raises. intros H.
  apply andb_prop in H as [H Hg]. apply andb_prop in H as [Hfp Hd].
  apply negb_true_iff in Hfp.
  destruct (re_match issue_re line) as [g|] eqn:Hm; [|discriminate].
  destruct (group 1 g) as [digits|] eqn:Hg1; [|discriminate].
  split; [assumption|]. split; [assumption|].
  exists g, digits. split; [reflexivity|]. split; [assumption|].
  now apply Nat.ltb_lt.
Qed.

Lemma candidate_when_matched (f line : string) (g : groups) :
  f <> "" -> re_match issue_re line = Some g ->
  issue_candidate f line = true.
Proof.
  intros Hne Hg.
  assert (Hs : issue_shape line) by (apply issue_re_shape; congruence).
  unfold issue_candidate.
  rewrite (proj2 (truthy_true f) Hne), (issue_shape_not_blank _ Hs).
  pose proof (issue_shape_prefix _ Hs) as Hp.
  now destruct (re_match issue_prefix_re line).
Qed.

(** Under a current file, a line outside the file-path branch whose line
    number [int] accepts is recorded exactly when the second pattern
    decomposes it, and changes nothing otherwise: the two tests of the
    [elif] never reject a line that the second pattern accepts.  When the
    line number has more than 4300 digits, [int] raises and the turn does
    not complete; that happens for no other line. *)
Theorem recorded_when_decomposed (st : parser_state) (f line : string) :
  current_file st = Some f -> f <> "" -> file_path_line line = false ->
  (raises_on st line = false ->
   emitted st line
   = match parse_issue line with
     | Some r => Some (f, issue_of r)
     | None => None
     end
   /\ process_line_checked st line
      = Some (mkState (Some f)
                (match parse_issue line with
                 | Some r => dict_append (errors_by_file st) f (issue_of r)
                 | None => errors_by_file st
                 end)))
  /\ (raises_on st line = true ->
      process_line_checked st line = None /\ issue_shape line)
  /\ (raises_on st line = true
      <-> exists g digits,
            re_match issue_re line = Some g /\ group 1 g = Some digits
            /\ int_max_str_digits < String.length digits).
Proof.
  intros Hf Hne Hfp. split; [|split].
  - intros Hr. unfold process_line_checked. rewrite Hr.
    unfold emitted, process_line. rewrite Hfp, Hf.
    destruct (parse_issue line) as [r|] eqn:Hp.
    + assert (Hc : issue_candidate f line = true).
      { unfold parse_issue in Hp.
        destruct (re_match issue_re line) as [g|] eqn:Hg; [|discriminate].
        now apply (candidate_when_matched f line g). }
      now rewrite Hc.
    + destruct st as [cur errs]; simpl in *. subst cur.
      now destruct (issue_candidate f line).
  - intros Hr. unfold process_line_checked. rewrite Hr.
    split; [reflexivity|].
    destruct (raises_on_long_number _ _ Hr) as (_ & _ & g & _ & Hg & _).
    apply issue_re_shape. congruence.
  - split.
    + intros Hr. now destruct (raises_on_long_number _ _ Hr) as (_ & _ & H).
    + intros (g & digits & Hg & Hd & Hlong).
      unfold raises_on, diagnostic_line, int_raises.
      rewrite Hfp, Hf, (candidate_when_matched f line g Hne Hg), Hg, Hd.
      cbn [negb andb]. now apply Nat.ltb_lt.
Qed.

Lemma recorded_when_decomposed_witness :
  (raises_on (mkState (Some sample_header) []) sample_issue_line = false
   /\ process_line_checked (mkState (Some sample_header) []) sample_issue_line
      = Some (mkState (Some sample_header)
                [(sample_header, [issue_of sample_record])]))
  /\ (raises_on (mkState (Some sample_header) []) long_number_line = true
      /\ process_line_checked (mkState (Some sample_header) [])
           long_number_line = None).
Proof.
  assert (Hne : sample_header <> "") by discriminate.
  split.
  - assert (Hr : raises_on (mkState (Some sample_header) [])
                   sample_issue_line = false) by reflexivity.
    split; [exact Hr|].
    exact (proj2 (proj1 (recorded_when_decomposed
                           (mkState (Some sample_header) []) sample_header
                           sample_issue_line eq_refl Hne eq_refl) Hr)).
  - assert (Hr : raises_on (mkState (Some sample_header) [])
                   long_number_line = true) by (vm_compute; reflexivity).
    split; [exact Hr|].
    exact (proj1 (proj1 (proj2 (recorded_when_decomposed
                                  (mkState (Some sample_header) [])
                                  sample_header long_number_line
                                  eq_refl Hne eq_refl)) Hr)).
Defined.

(** ** More on [sorted] *)

Section StableSortFacts.
Context {A : Type} (before : A -> A -> bool).

(** Elements of one class never overtake each other. *)
Lemma insert_sorted_filter (c : A -> bool) (x : A) (l : list A) :
  (forall a b, c a = true -> c b = true -> before a b = true) ->
  filter c (insert_sorted before x l) = filter c (x :: l).
Proof.
  intros Hc. induction l as [|y l IH]; [reflexivity|].
  cbn [insert_sorted]. destruct (before x y) eqn:Hb; [reflexivity|].
  cbn [filter] in *. rewrite IH.
  destruct (c x) eqn:Hx, (c y) eqn:Hy; try reflexivity.
  rewrite (Hc x y Hx Hy) in Hb. discriminate.
Qed.

Lemma stable_sort_filter (c : A -> bool) (l : list A) :
  (forall a b, c a = true -> c b = true -> before a b = true) ->
  filter c (stable_sort before l) = filter c l.
Proof.
  intros Hc. induction l as [|x l IH]; [reflexivity|].
  cbn [stable_sort]. rewrite insert_sorted_filter by assumption.
  cbn [filter]. now rewrite IH.
Qed.

Lemma stable_sort_fixed (l : list A) :
  StronglySorted (fun a b => before a b = true) l ->
  stable_sort before l = l.
Proof.
  induction 1 as [|x l Hl IH Hx]; [reflexivity|].
  cbn [stable_sort]. rewrite IH.
  destruct l as [|y l]; [reflexivity|].
  cbn [insert_sorted]. inversion Hx as [|? ? Hxy _]; subst.
  now rewrite Hxy.
Qed.
End StableSortFacts.

Lemma StronglySorted_weaken {A : Type} (R S : A -> A -> Prop) (l : list A) :
  (forall a b, R a b -> S a b) -> StronglySorted R l -> StronglySorted S l.
Proof.
  intros HRS. induction 1 as [|x l Hl IH Hx]; constructor; [assumption|].
  eapply Forall_impl; [|exact Hx]. apply HRS.
Qed.

Lemma insert_ascending {A : Type} (key : A -> N) (x : A) (l : list A) :
  ascending key l ->
  ascending key (insert_sorted (fun a b => key a <=? key b)%N x l).
Proof.
  unfold ascending.
  induction 1 as [|y l Hl IH Hy]; simpl.
  - repeat constructor.
  - destruct (N.leb_spec (key x) (key y)) as [Hle|Hlt].
    + constructor; [now constructor|].
      constructor; [assumption|].
      eapply Forall_impl; [|exact Hy]. simpl; intros; lia.
    + constructor; [assumption|].
      eapply Permutation_Forall;
        [symmetry; apply insert_sorted_perm|].
      constructor; [lia | assumption].
Qed.

Lemma sorted_asc_ascending {A : Type} (key : A -> N) (l : list A) :
  ascending key (sorted_asc key l).
Proof.
  unfold sorted_asc.
  induction l as [|x l IH]; simpl; [constructor|].
  now apply insert_ascending.
Qed.

(** [sorted(l, key=...)] by line number: a rearrangement of [l] with
    non-decreasing keys, in which elements of equal key keep the order they
    had in [l]; sorting the result again changes nothing. *)
Theorem sorted_asc_is_stable {A : Type} (key : A -> N) (l : list A) :
  Permutation (sorted_asc key l) l
  /\ ascending key (sorted_asc key l)
  /\ (forall n, filter (fun x => key x =? n)%N (sorted_asc key l)
                = filter (fun x => key x =? n)%N l)
  /\ sorted_asc key (sorted_asc key l) = sorted_asc key l.
Proof.
  split; [apply stable_sort_perm|].
  split; [apply sorted_asc_ascending|]. split.
  - intros n. apply stable_sort_filter.
    intros a b Ha Hb. apply N.eqb_eq in Ha, Hb. apply N.leb_le. lia.
  - apply stable_sort_fixed.
    eapply StronglySorted_weaken; [|apply sorted_asc_ascending].
    intros a b Hab. now apply N.leb_le.
Qed.

(** [sorted(l, key=..., reverse=True)] by count: a rearrangement of [l]
    with non-increasing keys, in which elements of equal key keep the order
    they had in [l]; sorting the result again changes nothing. *)
Theorem sorted_desc_is_stable {A : Type} (key : A -> nat) (l : list A) :
  Permutation (sorted_desc key l) l
  /\ descending key (sorted_desc key l)
  /\ (forall n, filter (fun x => key x =? n)%nat (sorted_desc key l)
                = filter (fun x => key x =? n)%nat l)
  /\ sorted_desc key (sorted_desc key l) = sorted_desc key l.
Proof.
  split; [apply stable_sort_perm|].
  split; [apply sorted_desc_descending|]. split.
  - intros n. apply stable_sort_filter.
    intros a b Ha Hb. apply Nat.eqb_eq in Ha, Hb. apply Nat.leb_le. lia.
  - apply stable_sort_fixed.
    eapply StronglySorted_weaken; [|apply sorted_desc_descending].
    intros a b Hab. now apply Nat.leb_le.
Qed.

(** ** The detailed view *)

Lemma detail_rows_app (a b : list printed) :
  detail_rows (a ++ b) = detail_rows a ++ detail_rows b.
Proof.
  induction a as [|p a IH]; [reflexivity|].
  destruct p; simpl; now rewrite ?IH.
Qed.

Lemma detail_rows_issues (l : list issue) :
  detail_rows (map (fun e => DetailIssue (issue_text e)) l)
  = map issue_text l.
Proof. induction l as [|e l IH]; simpl; [reflexivity | now rewrite IH]. Qed.

Lemma detail_rows_block (entry : string * list issue) :
  detail_rows (detailed_block entry)
  = map issue_text (sorted_asc issue_line (snd entry)).
Proof.
  destruct entry as [f errors]. unfold detailed_block.
  rewrite detail_rows_app, detail_rows_issues. reflexivity.
Qed.

Lemma detail_rows_blocks (files : dict (list issue)) :
  detail_rows (flat_map detailed_block files)
  = flat_map (fun x => map issue_text (sorted_asc issue_line (snd x))) files.
Proof.
  induction files as [|x files IH]; [reflexivity|].
  cbn [flat_map]. now rewrite detail_rows_app, detail_rows_block, IH.
Qed.

(** The detailed view lists the files by non-increasing number of issues,
    files of equal size in the order of the mapping, and under each file
    its issues by non-decreasing line number, issues of one line in the
    order they were met.  Every issue of the mapping is printed exactly
    once: the issue rows are a rearrangement of all the texts. *)
Theorem detailed_view_order (d : dict (list issue)) :
  let files := sorted_desc (fun x => List.length (snd x)) d in
  detail_rows (print_detailed_output d)
  = flat_map (fun x => map issue_text (sorted_asc issue_line (snd x))) files
  /\ Permutation files d
  /\ descending (fun x => List.length (snd x)) files
  /\ (forall n, filter (fun x => List.length (snd x) =? n)%nat files
                = filter (fun x => List.length (snd x) =? n)%nat d)
  /\ Permutation (detail_rows (print_detailed_output d))
                 (map issue_text (flat_map snd d)).
Proof.
  intros files.
  assert (Hrows : detail_rows (print_detailed_output d)
                  = flat_map (fun x => map issue_text
                                         (sorted_asc issue_line (snd x)))
                             files).
  { unfold print_detailed_output.
    rewrite detail_rows_app, detail_rows_blocks. reflexivity. }
  destruct (sorted_desc_is_stable (fun x => List.length (snd x)) d)
    as (Hperm & Hdesc & Hties & _).
  repeat split; try assumption.
  rewrite Hrows.
  transitivity (flat_map (fun x => map issue_text
                                     (sorted_asc issue_line (snd x))) d).
  - now apply Permutation_flat_map.
  - clear. induction d as [|[f errors] d IH]; simpl; [constructor|].
    rewrite map_app. apply Permutation_app; [|exact IH].
    apply Permutation_map, stable_sort_perm.
Qed.

(** ** The summary view *)

Lemma summary_file_rows_app (a b : list printed) :
  summary_file_rows (a ++ b) = summary_file_rows a ++ summary_file_rows b.
Proof.
  induction a as [|p a IH]; [reflexivity|].
  destruct p; simpl; now rewrite ?IH.
Qed.

Lemma summary_file_rows_categories (l : list (string * nat)) :
  summary_file_rows (map category_row l) = [].
Proof. induction l; simpl; auto. Qed.

Lemma summary_file_rows_block (s : file_summary) :
  summary_file_rows (summary_block s) = [(sum_path s, sum_total s)].
Proof.
  unfold summary_block.
  rewrite !summary_file_rows_app, summary_file_rows_categories.
  now destruct (10 <? List.length (sorted_categories s))%nat.
Qed.

Lemma summary_file_rows_blocks (l : list file_summary) :
  summary_file_rows (flat_map summary_block l)
  = map (fun s => (sum_path s, sum_total s)) l.
Proof.
  induction l as [|s l IH]; [reflexivity|].
  cbn [flat_map map].
  now rewrite summary_file_rows_app, summary_file_rows_block, IH.
Qed.

(** The summary view has one header row per file of the mapping, by
    non-increasing total, files of equal total in the order of the mapping;
    the totals are the sizes of the files' lists, and the last row states
    the number of files of the mapping. *)
Theorem summary_view_order (d : dict (list issue)) :
  let blocks := sorted_desc sum_total (map summarize d) in
  summary_file_rows (print_summary d)
  = map (fun s => (sum_path s, sum_total s)) blocks
  /\ Permutation blocks (map summarize d)
  /\ descending sum_total blocks
  /\ (forall n, filter (fun s => sum_total s =? n)%nat blocks
                = filter (fun s => sum_total s =? n)%nat (map summarize d))
  /\ List.length (summary_file_rows (print_summary d)) = List.length d
  /\ last (print_summary d) (Plain "") = FileCount (List.length d).
Proof.
  intros blocks.
  assert (Hrows : summary_file_rows (print_summary d)
                  = map (fun s => (sum_path s, sum_total s)) blocks).
  { unfold print_summary. rewrite summary_totals_eq.
    rewrite !summary_file_rows_app, summary_file_rows_blocks.
    simpl. now rewrite app_nil_r. }
  destruct (sorted_desc_is_stable sum_total (map summarize d))
    as (Hperm & Hdesc & Hties & _).
  repeat split; try assumption.
  - rewrite Hrows, length_map.
    etransitivity; [exact (Permutation_length Hperm) | apply length_map].
  - unfold print_summary. rewrite summary_totals_eq.
    rewrite !app_assoc.
    match goal with
    | |- last (?a ++ [?w; ?x; ?y; ?z]) _ = _ =>
        change (a ++ [w; x; y; z]) with (a ++ [w; x; y] ++ [z]);
        rewrite (app_assoc a), last_last
    end.
    now rewrite length_map.
Qed.

(** ** Display paths *)

Lemma startswith_append (t s : string) : startswith t (t ++ s) = true.
Proof.
  induction t as [|a t IH]; simpl; [reflexivity|].
  now rewrite Ascii.eqb_refl.
Qed.

Lemma remove_from_skip (old a s : string) :
  remove_from old (String.length a) (a ++ s) = remove_from old 0 s.
Proof. induction a as [|c a IH]; simpl; [reflexivity | exact IH]. Qed.

Lemma remove_all_prefix (old s : string) :
  remove_all old (old ++ s) = remove_all old s.
Proof.
  unfold remove_all. destruct old as [|c old]; [reflexivity|].
  cbn [truthy]. change (String c old ++ s)%string with (String c (old ++ s)).
  cbn [remove_from].
  change (String c (old ++ s)) with (String c old ++ s)%string.
  rewrite startswith_append. cbn [String.length].
  replace (S (String.length old) - 1) with (String.length old) by lia.
  apply remove_from_skip.
Qed.

Lemma remove_all_absent (old s : string) :
  contains old s = false -> remove_all old s = s.
Proof.
  unfold remove_all. destruct (truthy old); [|reflexivity].
  induction s as [|c s IH]; [reflexivity|].
  cbn [contains remove_from]. intros H.
  apply orb_false_iff in H as [Hs Hc]. rewrite Hs. now rewrite IH.
Qed.

Lemma remove_from_length (old : string) (s : string) :
  forall skip, String.length (remove_from old skip s) <= String.length s.
Proof.
  induction s as [|c s IH]; intros skip; simpl; [lia|].
  destruct skip as [|n].
  - destruct (startswith old (String c s)); simpl.
    + specialize (IH (String.length old - 1)). lia.
    + specialize (IH 0). lia.
  - specialize (IH n). lia.
Qed.

(** Stripping the project path for display: a leading project path is
    removed; what follows is shown as it is when it does not contain the
    project path again; a path without the project path is shown as it is;
    and a display path is never longer than the path. *)
Theorem display_path_strips_project (rel : string) :
  contains project_path rel = false ->
  display_path_of (project_path ++ rel) = rel
  /\ display_path_of rel = rel
  /\ (forall p, display_path_of (project_path ++ p) = display_path_of p)
  /\ (forall p, String.length (display_path_of p) <= String.length p).
Proof.
  intros H. unfold display_path_of.
  split; [now rewrite remove_all_prefix, remove_all_absent|].
  split; [now apply remove_all_absent|].
  split; [intros p; apply remove_all_prefix|].
  intros p. unfold remove_all.
  destruct (truthy project_path); [apply remove_from_length | lia].
Qed.

Lemma display_path_strips_project_witness :
  contains project_path "src/index.ts" = false
  /\ display_path_of sample_header = "src/index.ts".
Proof.
  split; [reflexivity|].
  exact (proj1 (display_path_strips_project "src/index.ts" eq_refl)).
Defined.

(** ** The category counts, for any list of issues *)

Lemma split_ws_blank (s : string) :
  split_ws s = [] <-> all_chars is_space s = true.
Proof.
  induction s as [|c s IH]; [simpl; tauto|].
  destruct (is_space c) eqn:Hc.
  - cbn [split_ws all_chars]. rewrite Hc. exact IH.
  - split.
    + intros H. now apply split_ws_head in H.
    + simpl. rewrite Hc. discriminate.
Qed.

Lemma count_category_get (cats : dict nat) (e : issue) (k : string) :
  dict_get (count_category cats e) k
  = match dict_get cats k, occurrences k [e] with
    | Some n, c => Some (n + c)
    | None, 0 => None
    | None, c => Some c
    end.
Proof.
  unfold count_category, occurrences, last_token. simpl.
  destruct (split_ws (issue_text e)) as [|p parts]; simpl.
  - destruct (dict_get cats k); [now rewrite Nat.add_0_r | reflexivity].
  - unfold dict_incr. destruct (String.eqb_spec (last parts p) k) as [->|Hne].
    + rewrite dict_get_update_same. simpl.
      destruct (dict_get cats k); [f_equal; lia | reflexivity].
    + rewrite dict_get_update_other by congruence. simpl.
      destruct (dict_get cats k); [now rewrite Nat.add_0_r | reflexivity].
Qed.

Lemma category_breakdown_get (errors : list issue) (k : string) :
  forall cats,
    dict_get (fold_left count_category errors cats) k
    = match dict_get cats k, occurrences k errors with
      | Some n, c => Some (n + c)
      | None, 0 => None
      | None, c => Some c
      end.
Proof.
  induction errors as [|e l IH]; intros cats.
  - simpl. destruct (dict_get cats k); [now rewrite Nat.add_0_r | reflexivity].
  - cbn [fold_left]. rewrite IH, count_category_get.
    assert (Hocc : occurrences k (e :: l)
                   = occurrences k [e] + occurrences k l).
    { unfold occurrences. simpl.
      now destruct (last_token (issue_text e)) as [t|];
        [destruct (String.eqb t k)|]. }
    rewrite Hocc.
    destruct (dict_get cats k) as [n|].
    + f_equal. lia.
    + destruct (occurrences k [e]) as [|c]; [reflexivity|].
      simpl. f_equal.
Qed.

Lemma category_sum_tokens (errors : list issue) :
  forall cats,
    list_sum (map snd (fold_left count_category errors cats))
    = list_sum (map snd cats) + List.length (filter has_token errors).
Proof.
  induction errors as [|e l IH]; intros cats; simpl; [lia|].
  rewrite IH. unfold count_category, has_token.
  destruct (split_ws (issue_text e)); simpl; [lia|].
  rewrite list_sum_dict_incr. lia.
Qed.

(** For any list of issues, parsed or not: every rule appears once in the
    category counts, with the number of issues whose text ends in that
    token, which is at least 1; a token that ends no text has no entry; the
    counts add up to the number of issues whose text is not blank, so an
    issue with a blank text is counted under no rule. *)
Theorem category_counts (errors : list issue) :
  let h := category_breakdown errors in
  NoDup (keys h)
  /\ (forall k, dict_get h k
                = match occurrences k errors with
                  | 0 => None
                  | c => Some c
                  end)
  /\ (forall k c, In (k, c) h -> 1 <= c /\ c = occurrences k errors)
  /\ (forall e, has_token e = false
                <-> all_chars is_space (issue_text e) = true)
  /\ list_sum (map snd h) = List.length (filter has_token errors).
Proof.
  intros h.
  assert (Hnd : NoDup (keys h))
    by (apply (category_keys_NoDup errors []); constructor).
  assert (Hget : forall k, dict_get h k
                           = match occurrences k errors with
                             | 0 => None
                             | c => Some c
                             end).
  { intros k. unfold h, category_breakdown.
    now rewrite category_breakdown_get. }
  split; [assumption|]. split; [assumption|]. split; [|split].
  - intros k c Hin.
    assert (Hk : dict_get h k = Some c).
    { clear Hget. induction h as [|[k0 c0] h IH]; simpl; [contradiction|].
      inversion Hnd as [|? ? Hnotin Hnd']; subst.
      destruct Hin as [[= -> ->]|Hin]; [now rewrite String.eqb_refl|].
      destruct (String.eqb_spec k0 k) as [->|]; [|now apply IH].
      exfalso. apply Hnotin. unfold keys.
      change k with (fst (k, c)). now apply in_map. }
    rewrite Hget in Hk.
    destruct (occurrences k errors) as [|n]; [discriminate|].
    injection Hk as <-. split; [lia | reflexivity].
  - intros e. unfold has_token. rewrite <- split_ws_blank.
    destruct (split_ws (issue_text e)); split; congruence.
  - unfold h, category_breakdown. now rewrite category_sum_tokens.
Qed.

(** ** Line numbers as text *)

Lemma int_acc_digit (c : ascii) (k acc : N) (s : string) :
  is_digit c = true -> (N_of_ascii c - 48)%N = k ->
  int_acc acc (String c s) = int_acc (acc * 10 + k) s.
Proof. intros Hc <-. simpl. now rewrite Hc. Qed.

Lemma int_acc_pos (d : Decimal.uint) :
  forall acc : positive,
    int_acc (Npos acc) (NilEmpty.string_of_uint d)
    = Some (Npos (Pos.of_uint_acc d acc)).
Proof.
  induction d as [|d IH|d IH|d IH|d IH|d IH|d IH|d IH|d IH|d IH|d IH];
    intros acc; [reflexivity|..];
    cbn [NilEmpty.string_of_uint Pos.of_uint_acc];
    rewrite <- IH.
  - rewrite (int_acc_digit _ 0) by reflexivity. f_equal. lia.
  - rewrite (int_acc_digit _ 1) by reflexivity. f_equal. lia.
  - rewrite (int_acc_digit _ 2) by reflexivity. f_equal. lia.
  - rewrite (int_acc_digit _ 3) by reflexivity. f_equal. lia.
  - rewrite (int_acc_digit _ 4) by reflexivity. f_equal. lia.
  - rewrite (int_acc_digit _ 5) by reflexivity. f_equal. lia.
  - rewrite (int_acc_digit _ 6) by reflexivity. f_equal. lia.
  - rewrite (int_acc_digit _ 7) by reflexivity. f_equal. lia.
  - rewrite (int_acc_digit _ 8) by reflexivity. f_equal. lia.
  - rewrite (int_acc_digit _ 9) by reflexivity. f_equal. lia.
Qed.

Lemma int_acc_zero (d : Decimal.uint) :
  int_acc 0 (NilEmpty.string_of_uint d) = Some (N.of_uint d).
Proof.
  induction d as [|d IH|d IH|d IH|d IH|d IH|d IH|d IH|d IH|d IH|d IH];
    [reflexivity | exact IH | ..];
    cbn [NilEmpty.string_of_uint]; unfold N.of_uint; cbn [Pos.of_uint].
  - rewrite (int_acc_digit _ 1) by reflexivity. apply int_acc_pos.
  - rewrite (int_acc_digit _ 2) by reflexivity. apply int_acc_pos.
  - rewrite (int_acc_digit _ 3) by reflexivity. apply int_acc_pos.
  - rewrite (int_acc_digit _ 4) by reflexivity. apply int_acc_pos.
  - rewrite (int_acc_digit _ 5) by reflexivity. apply int_acc_pos.
  - rewrite (int_acc_digit _ 6) by reflexivity. apply int_acc_pos.
  - rewrite (int_acc_digit _ 7) by reflexivity. apply int_acc_pos.
  - rewrite (int_acc_digit _ 8) by reflexivity. apply int_acc_pos.
  - rewrite (int_acc_digit _ 9) by reflexivity. apply int_acc_pos.
Qed.

Lemma string_of_uint_digits (d : Decimal.uint) :
  all_chars is_digit (NilEmpty.string_of_uint d) = true.
Proof. induction d; simpl; auto. Qed.

(** [int(str(n)) = n] for every line number: the number that opens the
    text of an issue reads back as the line number stored beside it, and
    it is written with decimal digits only. *)
Theorem line_number_round_trip (n : N) :
  int_of_str (str_of_N n) = Some n
  /\ str_of_N n <> ""
  /\ all_chars is_digit (str_of_N n) = true.
Proof.
  unfold str_of_N, NilZero.string_of_uint, int_of_str.
  pose proof (DecimalN.Unsigned.of_to n) as Hn.
  destruct (N.to_uint n) as [|d|d|d|d|d|d|d|d|d|d] eqn:E;
    [ simpl in Hn; subst n; repeat split; discriminate | ..];
    rewrite int_acc_zero, Hn;
    (split; [reflexivity | split; [discriminate | apply string_of_uint_digits]]).
Qed.

(** ** The top-level flow *)









(** ** What is stored for an issue *)

Lemma parse_issue_message (line : string) (r : DiagnosticRecord) :
  parse_issue line = Some r -> exists t, message r = strip t.
Proof.
  unfold parse_issue, fields_of.
  destruct (re_match issue_re line) as [g|]; [|discriminate].
  destruct (group 1 g) as [g1|]; [|discriminate].
  destruct (group 2 g) as [g2|]; [|discriminate].
  destruct (group 3 g) as [g3|]; [|discriminate].
  destruct (group 4 g) as [g4|]; [|discriminate].
  destruct (group 5 g) as [g5|]; [|discriminate].
  destruct (int_of_str g1) as [n|]; [|discriminate].
  intros [= <-]. now exists g4.
Qed.

(** The message of every record and every key of the parser's result are
    trimmed texts: trimming them again changes nothing; a key has no blank
    at either end, and a message is empty or has no blank at either end. *)
Theorem recorded_texts_are_trimmed :
  (forall line r,
      parse_issue line = Some r ->
      strip (message r) = message r
      /\ (message r = ""
          \/ (starts_non_space (message r) = true
              /\ ends_non_space (message r) = true)))
  /\ (forall output k v,
        In (k, v) (parse_lint_output output) ->
        strip k = k
        /\ starts_non_space k = true /\ ends_non_space k = true).
Proof.
  split.
  - intros line r Hr. destruct (parse_issue_message _ _ Hr) as [t ->].
    destruct (strip_is_trimmed t) as (Hidem & _ & Hends).
    split; [assumption|].
    destruct (strip t) eqn:E; [now left|].
    right. apply Hends. discriminate.
  - intros output k v Hin.
    destruct (parsed_values _ _ _ Hin) as ((line & _ & _ & Hpp & ->) & _).
    destruct (strip_is_trimmed line) as (Hidem & _ & Hends).
    split; [assumption|]. apply Hends.
    intros E. apply (contains_strip project_path) in Hpp;
      [|reflexivity|reflexivity].
    rewrite E in Hpp. discriminate.
Qed.

(** The text stored for an issue opens with a non-empty run of decimal
    digits, the printed line number, followed by a colon: the number read
    back from those digits is the line number stored beside the text. *)
Theorem issue_text_opens_with_line (r : DiagnosticRecord) :
  exists number rest,
    issue_text (issue_of r) = (number ++ ":" ++ rest)%string
    /\ number <> "" /\ all_chars is_digit number = true
    /\ int_of_str number = Some (issue_line (issue_of r))
    /\ number = str_of_N (line_num r).
Proof.
  exists (str_of_N (line_num r)),
    (col_num r ++ " " ++ severity r ++ " " ++ message r ++ " " ++ rule r)%string.
  destruct (line_number_round_trip (line_num r)) as (Hint & Hne & Hd).
  repeat split; assumption.
Qed.

(** ** One file of the detailed view *)

(** Under a file, the detailed view prints the counts of the file and then
    its issues by non-decreasing line number; issues of the same line keep
    the order in which they were met, and none is lost or repeated. *)
Theorem detailed_block_order (file_path : string) (errors : list issue) :
  let shown := sorted_asc issue_line errors in
  detail_rows (detailed_block (file_path, errors)) = map issue_text shown
  /\ Permutation shown errors
  /\ ascending issue_line shown
  /\ (forall n, filter (fun e => issue_line e =? n)%N shown
                = filter (fun e => issue_line e =? n)%N errors)
  /\ nth_error (detailed_block (file_path, errors)) 1
     = Some (DetailFile (display_path_of file_path))
  /\ nth_error (detailed_block (file_path, errors)) 2
     = Some (DetailCounts (count_severity "error" errors)
                          (count_severity "warning" errors)
                          (List.length errors)).
Proof.
  intros shown.
  destruct (sorted_asc_is_stable issue_line errors) as (Hp & Ha & Ht & _).
  repeat split; try assumption.
  apply (detail_rows_block (file_path, errors)).
Qed.

(** ** The run as a whole: a mapping, or the ValueError *)

Lemma parse_lines_checked_result (ls : list string) :
  forall st st',
    parse_lines_checked st ls = Some st' -> st' = parse_lines st ls.
Proof.
  unfold parse_lines.
  induction ls as [|l ls IH]; intros st st'; simpl.
  - now intros [= <-].
  - unfold process_line_checked.
    destruct (raises_on st l); [discriminate|]. apply IH.
Qed.

Lemma parse_lines_checked_raises (ls : list string) :
  forall st,
    parse_lines_checked st ls = None ->
    exists pre l post,
      ls = pre ++ l :: post /\ raises_on (parse_lines st pre) l = true.
Proof.
  unfold parse_lines.
  induction ls as [|l ls IH]; intros st; simpl; [discriminate|].
  unfold process_line_checked.
  destruct (raises_on st l) eqn:Hr.
  - intros _. exists [], l, ls. auto.
  - intros H. destruct (IH _ H) as (pre & l' & post & -> & Hr').
    exists (l :: pre), l', post. auto.
Qed.

Lemma parse_lines_checked_short (ls : list string) :
  (forall l, In l ls -> forall st, raises_on st l = false) ->
  forall st, parse_lines_checked st ls = Some (parse_lines st ls).
Proof.
  unfold parse_lines.
  induction ls as [|l ls IH]; intros H st; simpl; [reflexivity|].
  unfold process_line_checked. rewrite (H l (or_introl eq_refl)).
  apply IH. intros; apply H; now right.
Qed.

(** The parser either returns, and then it returns the mapping that
    [parse_lint_output] describes, or it is ended by the ValueError of
    [int]; the latter happens exactly when the loop reaches a diagnostic
    line outside the file-path branch that the second pattern decomposes
    with a line number of more than 4300 digits.  A text whose line
    numbers are all shorter is always parsed to the end. *)
Theorem parser_returns_or_raises (output : string) :
  (forall d, parse_lint_output_checked output = Some d ->
             d = parse_lint_output output)
  /\ (parse_lint_output_checked output = None
      <-> exists pre l post g digits,
            split_on newline output = pre ++ l :: post
            /\ file_path_line l = false
            /\ diagnostic_line (parse_lines initial_state pre) l = true
            /\ re_match issue_re l = Some g /\ group 1 g = Some digits
            /\ int_max_str_digits < String.length digits
            /\ parse_lines_checked initial_state pre
               = Some (parse_lines initial_state pre))
  /\ ((forall l g digits,
         In l (split_on newline output) ->
         re_match issue_re l = Some g -> group 1 g = Some digits ->
         String.length digits <= int_max_str_digits) ->
      parse_lint_output_checked output = Some (parse_lint_output output)).
Proof.
  unfold parse_lint_output_checked, parse_lint_output.
  split; [|split].
  - intros d H.
    destruct (parse_lines_checked initial_state (split_on newline output))
      as [st'|] eqn:E; [|discriminate].
    injection H as <-. now rewrite (parse_lines_checked_result _ _ _ E).
  - split.
    + intros H.
      destruct (parse_lines_checked initial_state (split_on newline output))
        as [st'|] eqn:E; [discriminate|].
      clear H. revert E. generalize initial_state.
      induction (split_on newline output) as [|l ls IH]; intros st E;
        [discriminate|].
      simpl in E. unfold process_line_checked in E.
      destruct (raises_on st l) eqn:Hr.
      * destruct (raises_on_long_number _ _ Hr)
          as (Hfp & Hd & g & digits & Hg & Hg1 & Hlong).
        exists [], l, ls, g, digits. repeat split; assumption.
      * destruct (IH _ E)
          as (pre & l' & post & g & digits & -> & Hfp & Hd & Hg & Hg1
              & Hlong & Hpre).
        exists (l :: pre), l', post, g, digits.
        repeat split; try assumption.
        simpl. unfold process_line_checked. rewrite Hr. exact Hpre.
    + intros (pre & l & post & g & digits & -> & Hfp & Hd & Hg & Hg1
              & Hlong & Hpre).
      assert (Hr : raises_on (parse_lines initial_state pre) l = true).
      { unfold raises_on, int_raises. rewrite Hfp, Hd, Hg, Hg1.
        cbn [negb andb]. now apply Nat.ltb_lt. }
      assert (E : parse_lines_checked initial_state (pre ++ l :: post) = None).
      { clear -Hr Hpre. revert Hr Hpre. generalize initial_state.
        induction pre as [|p pre IH]; intros st Hr Hpre; simpl in *.
        - unfold process_line_checked. now rewrite Hr.
        - unfold process_line_checked in *.
          destruct (raises_on st p); [discriminate|].
          now apply IH. }
      now rewrite E.
  - intros H. rewrite parse_lines_checked_short; [reflexivity|].
    intros l Hl st. destruct (raises_on st l) eqn:Hr; [|reflexivity].
    destruct (raises_on_long_number _ _ Hr)
      as (_ & _ & g & digits & Hg & Hg1 & Hlong).
    specialize (H l g digits Hl Hg Hg1). lia.
Qed.

Lemma parser_returns_or_raises_witness :
  (forall l g digits,
      In l (split_on newline two_issue_text) ->
      re_match issue_re l = Some g -> group 1 g = Some digits ->
      String.length digits <= int_max_str_digits)
  /\ parse_lint_output_checked two_issue_text
     = Some [(sample_header, [issue_of sample_record; unused_variable_issue])].
Proof.
  assert (H : forall l g digits,
             In l (split_on newline two_issue_text) ->
             re_match issue_re l = Some g -> group 1 g = Some digits ->
             String.length digits <= int_max_str_digits).
  { intros l g digits Hl. vm_compute in Hl.
    destruct Hl as [<-|[<-|[<-|[]]]]; vm_compute;
      intros Hg; try discriminate;
      injection Hg as <-; intros Hd; injection Hd as <-;
      apply Nat.leb_le; vm_compute; reflexivity. }
  split; [exact H|].
  rewrite <- two_issue_parse.
  exact (proj2 (proj2 (parser_returns_or_raises two_issue_text)) H).
Defined.
